(** * Oracle World: the resilient request layer

    A shallow embedding of the two components that carry the retry,
    backoff and queueing logic of the module:

    - [BaseAPIClient] (scripts/api/api-client.js): [_makeRequest],
      [_createError], [_getExponentialBackoff], [_validateParams];
    - [QueueManager] (scripts/services/queue-manager.js): [enqueue],
      [_processQueue], [_checkRateLimit], [_updateRateLimit],
      [_waitForRateLimit], [getQueueLength].

    JavaScript numbers that the code only ever uses as integers (HTTP
    status, attempt index, retry budget, timestamps, counters) are [Z] or
    [nat]; delays, which carry the fractional jitter of [Math.random()], are
    rationals [Q] (floating-point rounding is not modelled).  Objects used
    as maps ([params], the [rateLimits] Map) are [gmap]s keyed by strings.

    [_makeRequest] is sequential code with effects: it is written in a
    state-and-exception monad over a world that scripts the network and
    [Math.random()] and records every [fetch] and every [_sleep].  Logging
    is left out.  The manager is asynchronous: it is a transition system
    whose steps are the runs of synchronous code between two suspensions,
    fired by the events that can reach it (a call of [enqueue], the
    settling of [execute()] with a result, with an error object or with a
    value that is no object, the resumption of an [await]), in any
    interleaving. *)

From Stdlib Require Import ZArith QArith Lia Lqa String Ascii List.
From stdpp Require Import base option list strings gmap pretty sorting.

Set Warnings "-register-all".
Local Open Scope Z_scope.

(** ** JavaScript values *)

(** The values that reach the code as request parameters or as parsed JSON
    bodies.  [VNum] holds the integer-valued numbers; every other finite
    number is truthy and behaves like a non-zero [VNum] wherever this
    development looks at it.  An object literal is an association list in
    property order. *)
Inductive JsValue : Type :=
  | VUndefined
  | VNull
  | VBool (b : bool)
  | VNum (n : Z)
  | VNaN
  | VStr (s : string)
  | VArr (items : list JsValue)
  | VObj (fields : list (string * JsValue)).

(** ToBoolean. *)
Definition truthy (v : JsValue) : bool :=
  match v with
  | VUndefined | VNull | VNaN => false
  | VBool b => b
  | VNum n => negb (n =? 0)
  | VStr s => negb (String.eqb s EmptyString)
  | VArr _ | VObj _ => true
  end.

Fixpoint assoc_get (k : string) (fields : list (string * JsValue)) : JsValue :=
  match fields with
  | [] => VUndefined
  | (k', v) :: rest => if String.eqb k k' then v else assoc_get k rest
  end.

(** [v.k] on a value that is neither [null] nor [undefined]: own data
    properties of objects; a primitive has none of the properties the code
    reads ([error], [message]). *)
Definition get_prop (v : JsValue) (k : string) : JsValue :=
  match v with
  | VObj fields => assoc_get k fields
  | _ => VUndefined
  end.

(** [a || b]. *)
Definition js_or (a b : JsValue) : JsValue := if truthy a then a else b.

Definition join (sep : string) (parts : list string) : string :=
  match parts with
  | [] => EmptyString
  | p :: ps => fold_left (fun acc q => acc +:+ sep +:+ q) ps p
  end.

(** ToString, as applied by a template literal. *)
Fixpoint js_to_string (v : JsValue) : string :=
  match v with
  | VUndefined => "undefined"
  | VNull => "null"
  | VBool true => "true"
  | VBool false => "false"
  | VNum n => pretty n
  | VNaN => "NaN"
  | VStr s => s
  | VArr items =>
      join "," (map (fun x => match x with
                              | VUndefined | VNull => EmptyString
                              | _ => js_to_string x
                              end) items)
  | VObj _ => "[object Object]"
  end.

(** ** Errors *)

Module ERROR_TYPES.
Definition RATE_LIMIT : string := "RATE_LIMIT".
Definition AUTH_ERROR : string := "AUTH_ERROR".
Definition NETWORK_ERROR : string := "NETWORK_ERROR".
Definition VALIDATION_ERROR : string := "VALIDATION_ERROR".
Definition STORAGE_ERROR : string := "STORAGE_ERROR".
Definition GENERIC_ERROR : string := "GENERIC_ERROR".
End ERROR_TYPES.

(** The [details] objects the client attaches to the errors it creates. *)
Inductive Details : Type :=
  | NoDetails
  | RateLimitDetails (status : Z) (retryAfter : option string)
  | AuthDetails (status : Z)
  | GenericDetails (status : Z) (data : JsValue)
  | TimeoutDetails (timeout : Z)
  | NetworkDetails (originalError : string) (url : string)
  | MissingDetails (missing : list string).

(** An [Error] object: [type] is [None] when the property is absent, as on
    every error the platform itself raises. *)
Record JsError : Type := mkError {
  name : string;
  message : string;
  type : option string;
  provider : option string;
  details : Details
}.

(** What a [throw] can carry here: an error object, or the [undefined] that
    [lastError] holds before any failure. *)
Inductive Thrown : Type :=
  | TUndefined
  | TError (e : JsError).

(** [error.type === t]. *)
Definition type_is (e : JsError) (t : string) : bool :=
  match type e with
  | Some s => String.eqb s t
  | None => false
  end.

(** [if (error.type)]: the empty string is falsy. *)
Definition type_truthy (e : JsError) : bool :=
  match type e with
  | Some s => negb (String.eqb s EmptyString)
  | None => false
  end.

(** [String.prototype.includes]. *)
Definition includes (s pat : string) : bool :=
  match String.index 0 pat s with
  | Some _ => true
  | None => false
  end.

(** ** BaseAPIClient *)

Record BaseAPIClient : Type := mkClient {
  apiKey : string;
  baseURL : string;
  client_provider : string;
  timeout : Z
}.

Definition _createError (this : BaseAPIClient) (ty msg : string) (d : Details)
  : JsError :=
  {| name := "Error"; message := msg; type := Some ty;
     provider := Some (client_provider this); details := d |}.

(** [_getExponentialBackoff(attempt)], with [rnd] the value [Math.random()]
    returns in the call. *)
Definition baseDelay : Z := 1000.
Definition maxDelay : Z := 30000.

Definition _getExponentialBackoff (attempt : nat) (rnd : Q) : Q :=
  let delay := Z.min (baseDelay * 2 ^ Z.of_nat attempt) maxDelay in
  (inject_Z delay + rnd * 1000)%Q.

(** The mean of a function of [Math.random()] under a finitely supported
    distribution, given as a list of (probability, value) pairs. *)
Definition expectation (dist : list (Q * Q)) (f : Q -> Q) : Q :=
  fold_right (fun pv acc => (fst pv * f (snd pv) + acc)%Q) 0%Q dist.

Definition total_mass (dist : list (Q * Q)) : Q := expectation dist (fun _ => 1%Q).

Definition is_distribution (dist : list (Q * Q)) : Prop :=
  Forall (fun pv => (0 <= fst pv)%Q /\ (0 <= snd pv)%Q /\ (snd pv < 1)%Q) dist /\
  (total_mass dist == 1)%Q.

(** [_validateParams(params, required)]: [None] when the call returns,
    [Some e] when it throws [e].  [param params key] is [params[key]] on a
    plain object: [undefined] for a key the object does not have. *)
Definition param (params : gmap string JsValue) (key : string) : JsValue :=
  default VUndefined (params !! key).

Definition missing_params (params : gmap string JsValue) (required : list string)
  : list string :=
  List.filter (fun key => negb (truthy (param params key))) required.

Definition _validateParams (this : BaseAPIClient)
    (params : gmap string JsValue) (required : list string) : option JsError :=
  let missing := missing_params params required in
  if (0 <? Z.of_nat (length missing)) then
    Some (_createError this ERROR_TYPES.VALIDATION_ERROR
            ("Missing required parameters: " +:+ join ", " missing)
            (MissingDetails missing))
  else None.

(** ** parseInt *)

Definition is_white_space (c : ascii) : bool :=
  let n := Z.of_nat (nat_of_ascii c) in
  ((9 <=? n) && (n <=? 13)) || (n =? 32).

Fixpoint skip_white_space (s : string) : string :=
  match s with
  | String c rest => if is_white_space c then skip_white_space rest else s
  | EmptyString => s
  end.

Definition digit_value (c : ascii) : option Z :=
  let n := Z.of_nat (nat_of_ascii c) in
  if (48 <=? n) && (n <=? 57) then Some (n - 48)
  else if (97 <=? n) && (n <=? 122) then Some (n - 87)
  else if (65 <=? n) && (n <=? 90) then Some (n - 55)
  else None.

(** The longest prefix of digits of the radix; [acc] is [None] until a
    digit has been read. *)
Fixpoint parse_digits (radix : Z) (s : string) (acc : option Z) : option Z :=
  match s with
  | EmptyString => acc
  | String c rest =>
      match digit_value c with
      | Some d =>
          if d <? radix
          then parse_digits radix rest (Some (default 0 acc * radix + d))
          else acc
      | None => acc
      end
  end.

(** [parseInt(s)] without a radix argument; [None] is [NaN]. *)
Definition parseInt (s : string) : option Z :=
  let s1 := skip_white_space s in
  let '(sign, s2) :=
    match s1 with
    | String "-" r => (-1, r)
    | String "+" r => (1, r)
    | _ => (1, s1)
    end in
  let '(radix, s3) :=
    match s2 with
    | String "0" (String "x" r) => (16, r)
    | String "0" (String "X" r) => (16, r)
    | _ => (10, s2)
    end in
  match parse_digits radix s3 None with
  | Some n => Some (sign * n)
  | None => None
  end.

(** ** The world of one [_makeRequest] call *)

(** How [response.json()] settles. *)
Inductive JsonOutcome : Type :=
  | JsonParsed (v : JsValue)
  | JsonFailed (e : JsError).

(** The parts of a fetch [Response] the client reads.  [retry_after] is
    [response.headers.get('retry-after')], [None] for [null]. *)
Record Response : Type := mkResponse {
  status : Z;
  statusText : string;
  retry_after : option string;
  body : JsonOutcome
}.

(** [response.ok], which the Fetch standard defines from the status. *)
Definition ok (r : Response) : bool := (200 <=? status r) && (status r <=? 299).

(** How the awaited [fetch(url, {...})] expression of an attempt settles:
    it resolves with a response, or throws (the abort of the timeout, a
    transport failure, ...).  Method, headers and payload only travel to
    the network; what comes back is the script's affair. *)
Inductive FetchOutcome : Type :=
  | Resolved (r : Response)
  | Rejected (e : JsError).

(** The environment scripts the n-th [fetch] and the n-th [Math.random()]. *)
Record Env : Type := mkEnv {
  fetch_script : nat -> FetchOutcome;
  random_script : nat -> Q
}.

(** The argument handed to [_sleep]. *)
Inductive Millis : Type :=
  | MsNaN
  | Ms (q : Q).

Inductive Event : Type :=
  | EvFetch (call : nat)
  | EvSleep (ms : Millis).

Record World : Type := mkWorld {
  fetch_calls : nat;
  random_calls : nat;
  trace : list Event
}.

Definition world0 : World := {| fetch_calls := 0; random_calls := 0; trace := [] |}.

(** A computation either completes normally or throws. *)
Inductive Completion (A : Type) : Type :=
  | Normal (a : A)
  | Throw (t : Thrown).
Arguments Normal {A} a.
Arguments Throw {A} t.

Definition Exec (A : Type) : Type := World -> Completion A * World.

Definition ret {A} (a : A) : Exec A := fun w => (Normal a, w).

Definition throw {A} (t : Thrown) : Exec A := fun w => (Throw t, w).

Definition bind {A B} (m : Exec A) (k : A -> Exec B) : Exec B :=
  fun w =>
    match m w with
    | (Normal a, w') => k a w'
    | (Throw t, w') => (Throw t, w')
    end.

Definition try_catch {A} (m : Exec A) (handler : Thrown -> Exec A) : Exec A :=
  fun w =>
    match m w with
    | (Normal a, w') => (Normal a, w')
    | (Throw t, w') => handler t w'
    end.

Declare Scope exec_scope.
Delimit Scope exec_scope with exec.
Notation "x <- m ;; k" := (bind m (fun x => k))
  (at level 100, m at next level, right associativity) : exec_scope.
Notation "m ;; k" := (bind m (fun _ => k))
  (at level 100, right associativity) : exec_scope.

Definition fetch_count (tr : list Event) : nat :=
  length (List.filter (fun ev => match ev with EvFetch _ => true | _ => false end) tr).

Definition sleeps (tr : list Event) : list Millis :=
  omap (fun ev => match ev with EvSleep ms => Some ms | _ => None end) tr.

(** The thrown [TypeError] of a property read on [null] or [undefined]. *)
Definition property_of_nullish (what prop : string) : JsError :=
  {| name := "TypeError";
     message := "Cannot read properties of " +:+ what +:+ " (reading '" +:+ prop +:+ "')";
     type := None; provider := None; details := NoDetails |}.

Section MakeRequest.
Local Open Scope exec_scope.

Variable this : BaseAPIClient.
Variable env : Env.
Variable endpoint : string.
Variable retries : Z.

Definition url : string := baseURL this +:+ endpoint.

Definition fetch : Exec Response := fun w =>
  let w' := {| fetch_calls := S (fetch_calls w);
               random_calls := random_calls w;
               trace := trace w ++ [EvFetch (fetch_calls w)] |} in
  match fetch_script env (fetch_calls w) with
  | Resolved r => (Normal r, w')
  | Rejected e => (Throw (TError e), w')
  end.

Definition Math_random : Exec Q := fun w =>
  (Normal (random_script env (random_calls w)),
   {| fetch_calls := fetch_calls w;
      random_calls := S (random_calls w);
      trace := trace w |}).

Definition _sleep (ms : Millis) : Exec unit := fun w =>
  (Normal tt,
   {| fetch_calls := fetch_calls w;
      random_calls := random_calls w;
      trace := trace w ++ [EvSleep ms] |}).

Definition response_json (r : Response) : Exec JsValue :=
  match body r with
  | JsonParsed v => ret v
  | JsonFailed e => throw (TError e)
  end.

(** [this._getExponentialBackoff(attempt)] as a call: it draws one
    [Math.random()]. *)
Definition backoff (attempt : nat) : Exec Millis :=
  rnd <- Math_random ;;
  ret (Ms (_getExponentialBackoff attempt rnd)).

(** [parseInt(retryAfter) * 1000]. *)
Definition retry_after_delay (retryAfter : string) : Millis :=
  match parseInt retryAfter with
  | Some s => Ms (inject_Z (s * 1000))
  | None => MsNaN
  end.

(** [errorData.error?.message || errorData.message || response.statusText] *)
Definition error_message (errorData : JsValue) (r : Response) : Exec JsValue :=
  match errorData with
  | VNull => throw (TError (property_of_nullish "null" "error"))
  | VUndefined => throw (TError (property_of_nullish "undefined" "error"))
  | _ =>
      let err := get_prop errorData "error" in
      let inner := match err with
                   | VUndefined | VNull => VUndefined
                   | _ => get_prop err "message"
                   end in
      ret (js_or (js_or inner (get_prop errorData "message")) (VStr (statusText r)))
  end.

(** What one pass through the loop body decides. *)
Inductive Ctl : Type :=
  | Continue
  | Return (v : JsValue).

Definition try_block (attempt : nat) : Exec Ctl :=
  response <- fetch ;;
  if status response =? 429 then
    let retryAfter := retry_after response in
    delay <- match retryAfter with
             | Some h => if negb (String.eqb h EmptyString)
                         then ret (retry_after_delay h)
                         else backoff attempt
             | None => backoff attempt
             end ;;
    if Z.of_nat attempt <? retries then
      _sleep delay ;; ret Continue
    else
      throw (TError (_createError this ERROR_TYPES.RATE_LIMIT "Rate limit exceeded"
                       (RateLimitDetails (status response) retryAfter)))
  else if (status response =? 401) || (status response =? 403) then
    throw (TError (_createError this ERROR_TYPES.AUTH_ERROR "Authentication failed"
                     (AuthDetails (status response))))
  else if negb (ok response) then
    errorData <- try_catch (response_json response) (fun _ => ret (VObj [])) ;;
    errorMessage <- error_message errorData response ;;
    throw (TError (_createError this ERROR_TYPES.GENERIC_ERROR
                     ("API error: " +:+ js_to_string errorMessage)
                     (GenericDetails (status response) errorData)))
  else
    responseData <- response_json response ;;
    ret (Return responseData).

Definition catch_block (attempt : nat) (error : Thrown) : Exec Ctl :=
  match error with
  | TUndefined => throw (TError (property_of_nullish "undefined" "type"))
  | TError e =>
      if type_is e ERROR_TYPES.AUTH_ERROR then throw error
      else if type_is e ERROR_TYPES.VALIDATION_ERROR then throw error
      else if String.eqb (name e) "AbortError" then
        if Z.of_nat attempt <? retries then
          d <- backoff attempt ;; _sleep d ;; ret Continue
        else
          throw (TError (_createError this ERROR_TYPES.NETWORK_ERROR "Request timed out"
                           (TimeoutDetails (timeout this))))
      else if String.eqb (name e) "TypeError" && includes (message e) "fetch" then
        if Z.of_nat attempt <? retries then
          d <- backoff attempt ;; _sleep d ;; ret Continue
        else
          throw (TError (_createError this ERROR_TYPES.NETWORK_ERROR
                           ("Network error: " +:+ message e)
                           (NetworkDetails (message e) url)))
      else if type_truthy e then throw error
      else if Z.of_nat attempt <? retries then
        d <- backoff attempt ;; _sleep d ;; ret Continue
      else ret Continue
  end.

(** One pass of the [for] body: the [try] block, and the [catch] block,
    which first stores the caught value in [lastError].  The result
    pairs the decision with the value of [lastError] afterwards. *)
Definition iteration (attempt : nat) (lastError : Thrown) : Exec (Ctl * Thrown) :=
  try_catch (c <- try_block attempt ;; ret (c, lastError))
            (fun error => c <- catch_block attempt error ;; ret (c, error)).

(** [for (attempt = ...; attempt <= retries; attempt++) {...}] followed by
    [throw lastError]; [passes] is the number of passes the loop header
    still allows, [retries + 1 - attempt]. *)
Fixpoint for_attempts (passes : nat) (attempt : nat) (lastError : Thrown)
  : Exec JsValue :=
  match passes with
  | O => throw lastError
  | S k =>
      r <- iteration attempt lastError ;;
      match fst r with
      | Return v => ret v
      | Continue => for_attempts k (S attempt) (snd r)
      end
  end.

Definition _makeRequest : Exec JsValue :=
  for_attempts (Z.to_nat (retries + 1)) 0%nat TUndefined.

End MakeRequest.

(** ** Vocabulary for the statements about [_makeRequest] *)

(** The two kinds of thrown value the [catch] block turns into a
    NETWORK_ERROR. *)
Definition is_timeout (e : JsError) : bool := String.eqb (name e) "AbortError".

Definition is_transport_failure (e : JsError) : bool :=
  String.eqb (name e) "TypeError" && includes (message e) "fetch".


(** The world after one more [fetch] and nothing else. *)
Definition after_fetch (w : World) : World :=
  {| fetch_calls := S (fetch_calls w);
     random_calls := random_calls w;
     trace := trace w ++ [EvFetch (fetch_calls w)] |}.

(** An attempt that answers with a non-2xx status other than 429, 401, 403. *)
Definition generic_failure (o : FetchOutcome) : Prop :=
  match o with
  | Resolved r =>
      ~ (200 <= status r <= 299) /\ status r <> 429 /\ status r <> 401 /\ status r <> 403
  | Rejected _ => False
  end.



(** An attempt that answers 401 or 403, or throws a value that already
    carries the type AUTH_ERROR or VALIDATION_ERROR. *)
Definition auth_or_validation_failure (o : FetchOutcome) : Prop :=
  match o with
  | Resolved r => status r = 401 \/ status r = 403
  | Rejected e =>
      type e = Some ERROR_TYPES.AUTH_ERROR \/ type e = Some ERROR_TYPES.VALIDATION_ERROR
  end.

(** The error such an attempt ends the call with. *)
Definition auth_or_validation_error (this : BaseAPIClient) (o : FetchOutcome) : JsError :=
  match o with
  | Resolved r =>
      _createError this ERROR_TYPES.AUTH_ERROR "Authentication failed"
        (AuthDetails (status r))
  | Rejected e => e
  end.





(** The trace of a call whose attempts [first], [first + 1], ... are each
    followed by one of the [delays], and then a last attempt. *)
Fixpoint attempts_trace (first : nat) (delays : list Millis) : list Event :=
  match delays with
  | [] => [EvFetch first]
  | d :: ds => EvFetch first :: EvSleep d :: attempts_trace (S first) ds
  end.






(** The errors a provider client ends a call with, as the queue sees them. *)
Definition rate_limit_error : JsError :=
  {| name := "Error"; message := "Rate limit exceeded";
     type := Some ERROR_TYPES.RATE_LIMIT; provider := Some "a";
     details := RateLimitDetails 429 None |}.

Definition network_error : JsError :=
  {| name := "Error"; message := "Request timed out";
     type := Some ERROR_TYPES.NETWORK_ERROR; provider := Some "a";
     details := TimeoutDetails 60000 |}.

(** ** QueueManager *)

Module QueueManager.

(** A request handed to [enqueue]: [{ provider, execute }].  The closure
    [execute] is opaque; [execute] names it, and how each call of it
    settles is supplied by the environment ([ExecuteSettles] below). *)
Record Request : Type := mkRequest {
  provider : string;
  execute : nat
}.

(** A queue entry [{ request, resolve, reject, timestamp }].  [resolve]
    and [reject] belong to the promise [enqueue] returned; [promise] is
    the identity of that promise, allocated in submission order. *)
Record Item : Type := mkItem {
  request : Request;
  promise : nat;
  timestamp : Z
}.

Record RateLimit : Type := mkRateLimit {
  count : Z;
  resetTime : Z
}.

(** A pending [setTimeout(resolve, waitTime)], set at time [set_at]. *)
Record Timer : Type := mkTimer {
  set_at : Z;
  waitTime : Z
}.

(** Where the one invocation of [_processQueue] that got past its guard
    is suspended. *)
Inductive Phase : Type :=
  | Idle
  | AwaitCheckRateLimit (item : Item) (timer : option Timer)
  | AwaitExecute (item : Item)
  | AwaitWaitForRateLimit (item : Item) (timer : option Timer).

Record State : Type := mkState {
  queue : list Item;
  processing : bool;
  rateLimits : gmap string RateLimit;
  phase : Phase;
  next_promise : nat
}.

(** [new QueueManager()]. *)
Definition init : State :=
  {| queue := []; processing := false; rateLimits := ∅;
     phase := Idle; next_promise := 0 |}.

(** A value that is no object: what [execute()] rejects with when it
    throws something else than an error object, as [_makeRequest] does
    with the [undefined] of a [lastError] never set. *)
Inductive Primitive : Type :=
  | PUndefined
  | PNull
  | PBool (b : bool)
  | PNum (n : Z)
  | PNaN
  | PStr (s : string).

(** What the manager does, in order.  [ObsReject] and [ObsRejectWith]
    are the two forms of [item.reject(error)], with an error object and
    with a value that is no object; [ObsThrow] is the throw of the
    [catch] block of [_processQueue], which settles no promise of an
    entry: [_processQueue()] is called without [await] or [catch]. *)
Inductive Obs : Type :=
  | ObsPush (item : Item)
  | ObsShift (item : Item)
  | ObsSetTimeout (ms : Z)
  | ObsExecute (item : Item)
  | ObsResolve (item : Item) (result : JsValue)
  | ObsReject (item : Item) (error : JsError)
  | ObsUnshift (item : Item)
  | ObsRejectWith (item : Item) (reason : Primitive)
  | ObsThrow (item : Item) (error : JsError).


(** [_checkRateLimit(provider)] up to its [await]: the timer it sets, if
    any.  [now] is [Date.now()]. *)
Definition _checkRateLimit (p : string) (now : Z)
    (limits : gmap string RateLimit) : option Timer :=
  match limits !! p with
  | Some limit =>
      if now <? resetTime limit
      then Some {| set_at := now; waitTime := resetTime limit - now |}
      else None
  | None => None
  end.

Definition _updateRateLimit (p : string) (now : Z)
    (limits : gmap string RateLimit) : gmap string RateLimit :=
  let limit := default {| count := 0; resetTime := now + 60000 |} (limits !! p) in
  if resetTime limit <=? now then
    <[p := {| count := 1; resetTime := now + 60000 |}]> limits
  else
    <[p := {| count := count limit + 1; resetTime := resetTime limit |}]> limits.

Definition _isRateLimitError (error : JsError) : bool :=
  type_is error ERROR_TYPES.RATE_LIMIT.

(** [_waitForRateLimit(provider)] up to its [await]. *)
Definition _waitForRateLimit (p : string) (now : Z)
    (limits : gmap string RateLimit) : option Timer :=
  match limits !! p with
  | Some limit =>
      Some {| set_at := now; waitTime := Z.max 0 (resetTime limit - now) |}
  | None => None
  end.

Definition timer_obs (t : option Timer) : list Obs :=
  match t with
  | Some tm => [ObsSetTimeout (waitTime tm)]
  | None => []
  end.

(** A suspended [await] may resume at time [now]: at once when no timer
    was set, otherwise once the timer has run out. *)
Definition due (t : option Timer) (now : Z) : bool :=
  match t with
  | Some tm => set_at tm + waitTime tm <=? now
  | None => true
  end.

(** [_processQueue()] from its call to its first suspension. *)
Definition _processQueue (now : Z) (st : State) : State * list Obs :=
  if processing st || (Z.of_nat (length (queue st)) =? 0) then (st, [])
  else
    match queue st with
    | [] => (st, [])
    | item :: rest =>
        let timer := _checkRateLimit (provider (request item)) now (rateLimits st) in
        ({| queue := rest; processing := true; rateLimits := rateLimits st;
            phase := AwaitCheckRateLimit item timer;
            next_promise := next_promise st |},
         ObsShift item :: timer_obs timer)
    end.

(** The [finally] block. *)
Definition finally (now : Z) (st : State) : State * list Obs :=
  _processQueue now
    {| queue := queue st; processing := false; rateLimits := rateLimits st;
       phase := Idle; next_promise := next_promise st |}.

(** [enqueue(request)]: the executor of the new promise runs at once. *)
Definition enqueue (req : Request) (now : Z) (st : State) : State * list Obs :=
  let item := {| request := req; promise := next_promise st; timestamp := now |} in
  let pushed := {| queue := queue st ++ [item]; processing := processing st;
                   rateLimits := rateLimits st; phase := phase st;
                   next_promise := S (next_promise st) |} in
  let '(st', obs) := _processQueue now pushed in
  (st', ObsPush item :: obs).

(** The rest of [_processQueue] after [execute()] has settled with a
    result or with an error object. *)
Definition after_execute (item : Item) (outcome : JsValue + JsError) (now : Z)
    (st : State) : State * list Obs :=
  match outcome with
  | inl result =>
      let limits := _updateRateLimit (provider (request item)) now (rateLimits st) in
      let '(st', obs) :=
        finally now {| queue := queue st; processing := processing st;
                       rateLimits := limits; phase := phase st;
                       next_promise := next_promise st |} in
      (st', ObsResolve item result :: obs)
  | inr error =>
      if _isRateLimitError error then
        let timer := _waitForRateLimit (provider (request item)) now (rateLimits st) in
        ({| queue := item :: queue st; processing := processing st;
            rateLimits := rateLimits st;
            phase := AwaitWaitForRateLimit item timer;
            next_promise := next_promise st |},
         ObsUnshift item :: timer_obs timer)
      else
        let '(st', obs) := finally now st in
        (st', ObsReject item error :: obs)
  end.


(** What the [catch] block does with a [reason] that is no object.  On
    [null] and [undefined] the read of [error.type] in
    [_isRateLimitError] throws a [TypeError] out of the [catch] block:
    the entry is neither put back nor rejected, and its promise stays
    pending for ever.  Any other primitive has no [type]: it is no
    RATE_LIMIT error, and the entry is rejected with it. *)
Definition caught_primitive (item : Item) (reason : Primitive) : Obs :=
  match reason with
  | PUndefined => ObsThrow item (property_of_nullish "undefined" "type")
  | PNull => ObsThrow item (property_of_nullish "null" "type")
  | _ => ObsRejectWith item reason
  end.

(** The rest of [_processQueue] after [execute()] has rejected with a
    value that is no object.  The [finally] block runs either way. *)
Definition after_primitive_rejection (item : Item) (reason : Primitive) (now : Z)
    (st : State) : State * list Obs :=
  let '(st', obs) := finally now st in
  (st', caught_primitive item reason :: obs).

(** What happens to the manager from outside: a call of [enqueue], the
    settling of the awaited [execute()] (with a result, or with an error
    object), its rejection with a value that is no object, and the
    resumption of an [await] on [_checkRateLimit] or [_waitForRateLimit].
    Each carries the clock reading of the moment. *)
Inductive Label : Type :=
  | CallEnqueue (req : Request) (now : Z)
  | Resume (now : Z)
  | ExecuteSettles (outcome : JsValue + JsError) (now : Z)
  | ExecuteRejectsWith (reason : Primitive) (now : Z).

(** One run of synchronous code, from an outside event to the next
    suspension; [None] when the event cannot happen in the state. *)
Definition step (l : Label) (st : State) : option (State * list Obs) :=
  match l, phase st with
  | CallEnqueue req now, _ => Some (enqueue req now st)
  | Resume now, AwaitCheckRateLimit item timer =>
      if due timer now then
        Some ({| queue := queue st; processing := processing st;
                 rateLimits := rateLimits st; phase := AwaitExecute item;
                 next_promise := next_promise st |},
              [ObsExecute item])
      else None
  | Resume now, AwaitWaitForRateLimit item timer =>
      if due timer now then Some (finally now st) else None
  | ExecuteSettles outcome now, AwaitExecute item =>
      Some (after_execute item outcome now st)
  | ExecuteRejectsWith reason now, AwaitExecute item =>
      Some (after_primitive_rejection item reason now st)
  | _, _ => None
  end.

Definition run_from (start : State * list Obs) (ls : list Label)
  : option (State * list Obs) :=
  fold_left
    (fun acc l =>
       match acc with
       | Some (st, obs) =>
           match step l st with
           | Some (st', o) => Some (st', obs ++ o)
           | None => None
           end
       | None => None
       end)
    ls (Some start).

Definition run (ls : list Label) : option (State * list Obs) :=
  run_from (init, []) ls.

(** The entries the manager holds, oldest first: the one in flight, then
    the queue.  After a requeue the entry in flight is the head of the
    queue already. *)
Definition unsettled (st : State) : list Item :=
  match phase st with
  | Idle | AwaitWaitForRateLimit _ _ => queue st
  | AwaitCheckRateLimit item _ | AwaitExecute item => item :: queue st
  end.

Definition executed (obs : list Obs) : list nat :=
  omap (fun o => match o with ObsExecute item => Some (promise item) | _ => None end) obs.

(** The promises of the entries submitted, in the order of submission. *)
Definition submitted (obs : list Obs) : list nat :=
  omap (fun o => match o with ObsPush item => Some (promise item) | _ => None end) obs.




(** *** Vocabulary for the statements about the queue *)

Definition ids (items : list Item) : list nat := map promise items.

(** The promise next in line: that of the oldest unsettled entry, or the
    one the next [enqueue] will create. *)
Definition frontier (st : State) : nat :=
  match unsettled st with
  | item :: _ => promise item
  | [] => next_promise st
  end.

(** The shape of every state the manager can be in. *)
Record consistent (st : State) : Prop := mkConsistent {
  processing_iff_busy :
    processing st = match phase st with Idle => false | _ => true end;
  idle_queue_empty : phase st = Idle -> queue st = [];
  requeued_at_head :
    forall item timer, phase st = AwaitWaitForRateLimit item timer ->
                       exists rest, queue st = item :: rest;
  unsettled_in_order : StronglySorted lt (ids (unsettled st));
  unsettled_allocated :
    Forall (fun p => (p < next_promise st)%nat) (ids (unsettled st))
}.

(** The entry was put back and waits for its next execution. *)
Definition awaits_retry (st : State) (item : Item) : Prop :=
  (exists timer, phase st = AwaitWaitForRateLimit item timer) \/
  (exists timer, phase st = AwaitCheckRateLimit item timer).

(** The providers that have had an execution resolve. *)
Definition resolved_for (p : string) (obs : list Obs) : Prop :=
  exists item result, In (ObsResolve item result) obs /\ provider (request item) = p.

(** *** The transitions, case by case *)

(** The [finally] block with the rate limits [limits]: the manager goes
    idle on an empty queue, and takes the head of the queue otherwise. *)
Inductive drained (now : Z) (limits : gmap string RateLimit) (st : State)
  : State -> list Obs -> Prop :=
  | drained_idle :
      queue st = [] ->
      drained now limits st
        {| queue := []; processing := false; rateLimits := limits;
           phase := Idle; next_promise := next_promise st |}
        []
  | drained_next next rest :
      queue st = next :: rest ->
      drained now limits st
        {| queue := rest; processing := true; rateLimits := limits;
           phase := AwaitCheckRateLimit next
                      (_checkRateLimit (provider (request next)) now limits);
           next_promise := next_promise st |}
        (ObsShift next
           :: timer_obs (_checkRateLimit (provider (request next)) now limits)).

Inductive transition (st : State) : Label -> State -> list Obs -> Prop :=
  | enqueue_behind req now :
      processing st = true ->
      transition st (CallEnqueue req now)
        {| queue := queue st ++ [mkItem req (next_promise st) now];
           processing := true; rateLimits := rateLimits st; phase := phase st;
           next_promise := S (next_promise st) |}
        [ObsPush (mkItem req (next_promise st) now)]
  | enqueue_and_take req now :
      phase st = Idle -> queue st = [] ->
      transition st (CallEnqueue req now)
        {| queue := []; processing := true; rateLimits := rateLimits st;
           phase := AwaitCheckRateLimit (mkItem req (next_promise st) now)
                      (_checkRateLimit (provider req) now (rateLimits st));
           next_promise := S (next_promise st) |}
        (ObsPush (mkItem req (next_promise st) now)
           :: ObsShift (mkItem req (next_promise st) now)
           :: timer_obs (_checkRateLimit (provider req) now (rateLimits st)))
  | start_execute item timer now :
      phase st = AwaitCheckRateLimit item timer -> due timer now = true ->
      transition st (Resume now)
        {| queue := queue st; processing := processing st;
           rateLimits := rateLimits st; phase := AwaitExecute item;
           next_promise := next_promise st |}
        [ObsExecute item]
  | take_again item timer rest now :
      phase st = AwaitWaitForRateLimit item timer -> due timer now = true ->
      queue st = item :: rest ->
      transition st (Resume now)
        {| queue := rest; processing := true; rateLimits := rateLimits st;
           phase := AwaitCheckRateLimit item
                      (_checkRateLimit (provider (request item)) now (rateLimits st));
           next_promise := next_promise st |}
        (ObsShift item
           :: timer_obs (_checkRateLimit (provider (request item)) now (rateLimits st)))
  | resolve item result now st' o :
      phase st = AwaitExecute item ->
      drained now (_updateRateLimit (provider (request item)) now (rateLimits st))
        st st' o ->
      transition st (ExecuteSettles (inl result) now) st' (ObsResolve item result :: o)
  | reject item error now st' o :
      phase st = AwaitExecute item -> _isRateLimitError error = false ->
      drained now (rateLimits st) st st' o ->
      transition st (ExecuteSettles (inr error) now) st' (ObsReject item error :: o)
  | requeue item error now :
      phase st = AwaitExecute item -> _isRateLimitError error = true ->
      transition st (ExecuteSettles (inr error) now)
        {| queue := item :: queue st; processing := processing st;
           rateLimits := rateLimits st;
           phase := AwaitWaitForRateLimit item
                      (_waitForRateLimit (provider (request item)) now (rateLimits st));
           next_promise := next_promise st |}
        (ObsUnshift item
           :: timer_obs (_waitForRateLimit (provider (request item)) now (rateLimits st)))
  | reject_or_throw item reason now st' o :
      phase st = AwaitExecute item ->
      drained now (rateLimits st) st st' o ->
      transition st (ExecuteRejectsWith reason now) st' (caught_primitive item reason :: o).

(** *** Scenarios *)

Definition request_a : Request := {| provider := "a"; execute := 0 |}.
Definition request_b : Request := {| provider := "b"; execute := 1 |}.

Definition entry_a : Item := {| request := request_a; promise := 0; timestamp := 0 |}.
Definition entry_b : Item := {| request := request_b; promise := 1; timestamp := 0 |}.


Definition executing_a : State :=
  {| queue := []; processing := true; rateLimits := ∅;
     phase := AwaitExecute entry_a; next_promise := 1 |}.

(** [request_a] is being executed and [request_b] waits behind it. *)
Definition a_executing_b_waiting : State :=
  {| queue := [entry_b]; processing := true; rateLimits := ∅;
     phase := AwaitExecute entry_a; next_promise := 2 |}.

(** The execution of [request_a] rejects with [undefined]: its entry is
    dropped, and [request_b] is executed and resolves. *)
Definition dropped_entry_scenario : list Label :=
  [CallEnqueue request_a 0; CallEnqueue request_b 0; Resume 0;
   ExecuteRejectsWith PUndefined 1; Resume 1; ExecuteSettles (inl VNull) 2].

(** [request_a] is rate limited once and then resolves; [request_b] is
    submitted while it is in flight. *)
Definition requeue_scenario : list Label :=
  [CallEnqueue request_a 0; CallEnqueue request_b 0; Resume 0;
   ExecuteSettles (inr rate_limit_error) 1; Resume 1; Resume 1;
   ExecuteSettles (inl VNull) 2; Resume 2].

End QueueManager.

(** ** Scenarios *)

(** The client of the unit tests. *)
Definition test_client : BaseAPIClient :=
  {| apiKey := "test-key"; baseURL := "https://api.test.com";
     client_provider := "test"; timeout := 5000 |}.

(** A network that gives every attempt the same outcome. *)
Definition always (o : FetchOutcome) : Env :=
  {| fetch_script := fun _ => o; random_script := fun _ => 1 # 2 |}.

Definition server_error : FetchOutcome :=
  Resolved {| status := 500; statusText := "Internal Server Error";
              retry_after := None;
              body := JsonParsed (VObj [("error", VObj [("message", VStr "boom")])]) |}.

Definition syntax_error : JsError :=
  {| name := "SyntaxError"; message := "Unexpected end of JSON input";
     type := None; provider := None; details := NoDetails |}.

Definition unparsable_success : FetchOutcome :=
  Resolved {| status := 200; statusText := "OK"; retry_after := None;
              body := JsonFailed syntax_error |}.

Definition too_many_requests : FetchOutcome :=
  Resolved {| status := 429; statusText := "Too Many Requests";
              retry_after := None; body := JsonParsed (VObj []) |}.

Definition unauthorized : FetchOutcome :=
  Resolved {| status := 401; statusText := "Unauthorized";
              retry_after := None; body := JsonParsed (VObj []) |}.

Definition success : FetchOutcome :=
  Resolved {| status := 200; statusText := "OK"; retry_after := None;
              body := JsonParsed (VObj [("success", VBool true)]) |}.

(** Transport failures as [fetch] reports them: the message of Chromium,
    the message of WebKit, and the abort of the timeout. *)
Definition failed_to_fetch : JsError :=
  {| name := "TypeError"; message := "Failed to fetch";
     type := None; provider := None; details := NoDetails |}.


Definition abort_error : JsError :=
  {| name := "AbortError"; message := "The operation was aborted.";
     type := None; provider := None; details := NoDetails |}.

Definition retry_after_two : FetchOutcome :=
  Resolved {| status := 429; statusText := "Too Many Requests";
              retry_after := Some "2"; body := JsonParsed (VObj []) |}.

(** A 429 answer with a retry-after header, then a transport failure,
    then timeouts. *)
Definition mixed_failures : Env :=
  {| fetch_script := fun n => match n with
                              | O => retry_after_two
                              | S O => Rejected failed_to_fetch
                              | _ => Rejected abort_error
                              end;
     random_script := fun _ => 1 # 2 |}.

(** ** More vocabulary for [_makeRequest] *)

(** A backoff delay for attempt [i]: the capped exponential plus a jitter
    below 1000. *)
Definition backoff_delay (i : nat) (d : Millis) : Prop :=
  exists j : Q,
    (0 <= j)%Q /\ (j < 1000)%Q /\
    d = Ms (inject_Z (Z.min (1000 * 2 ^ Z.of_nat i) 30000) + j)%Q.

(** A thrown value the [catch] block does not recognise: it carries no
    (truthy) type and is neither the abort of the timeout nor a transport
    failure of [fetch]. *)
Definition unrecognised (e : JsError) : Prop :=
  type_truthy e = false /\ is_timeout e = false /\ is_transport_failure e = false.

(** An attempt that ends in such a value, and the value: [fetch] throws
    it, or the body of a 2xx answer does not parse, or the body of a
    generic-branch answer is [null]. *)
Definition unclassified_failure (o : FetchOutcome) (e : JsError) : Prop :=
  match o with
  | Rejected e' => e = e' /\ unrecognised e
  | Resolved r =>
      (200 <= status r <= 299 /\ body r = JsonFailed e /\ unrecognised e) \/
      (generic_failure (Resolved r) /\ body r = JsonParsed VNull /\
       e = property_of_nullish "null" "error")
  end.

(** ** Provider clients *)

(** [new Error(message)]. *)
Definition new_Error (msg : string) : JsError :=
  {| name := "Error"; message := msg; type := None; provider := None;
     details := NoDetails |}.

(** [v.k] as an expression: a [TypeError] on [null] and [undefined]. *)
Definition member (v : JsValue) (k : string) : Exec JsValue :=
  match v with
  | VNull => throw (TError (property_of_nullish "null" k))
  | VUndefined => throw (TError (property_of_nullish "undefined" k))
  | _ => ret (get_prop v k)
  end.

(** [v === s] for a string literal [s]. *)
Definition strictly_equals (v : JsValue) (s : string) : bool :=
  match v with
  | VStr x => String.eqb x s
  | _ => false
  end.

(** [Array.isArray(v)]. *)
Definition isArray (v : JsValue) : bool :=
  match v with
  | VArr _ => true
  | _ => false
  end.

(** [v[0]] as an expression. *)
Definition first_element (v : JsValue) : Exec JsValue :=
  match v with
  | VNull => throw (TError (property_of_nullish "null" "0"))
  | VUndefined => throw (TError (property_of_nullish "undefined" "0"))
  | VArr (x :: _) => ret x
  | VStr (String c _) => ret (VStr (String c EmptyString))
  | VObj fields => ret (assoc_get "0" fields)
  | _ => ret VUndefined
  end.

Section Clients.
Local Open Scope exec_scope.

Variable this : BaseAPIClient.
Variable env : Env.

(** The [retries] of a call of [_makeRequest] that passes none. *)
Definition default_retries : Z := 3.

(** [ReplicateClient._pollPrediction(predictionId, maxAttempts)].  The
    wait between two polls is the timeout promise of [_sleep], written
    out in the source; [passes] counts the passes the loop header still
    allows. *)
Fixpoint poll_passes (passes : nat) (predictionId : JsValue) : Exec JsValue :=
  match passes with
  | O => throw (TError (new_Error "Prediction timed out"))
  | S k =>
      prediction <- _makeRequest this env
                      ("/predictions/" +:+ js_to_string predictionId)
                      default_retries ;;
      status <- member prediction "status" ;;
      if strictly_equals status "succeeded" then ret prediction
      else if strictly_equals status "failed" || strictly_equals status "canceled" then
        throw (TError (new_Error
                 ("Prediction failed: "
                  +:+ js_to_string (js_or (get_prop prediction "error")
                                          (VStr "Unknown error")))))
      else
        _sleep (Ms 1000) ;; poll_passes k predictionId
  end.

Definition _pollPrediction (predictionId : JsValue) (maxAttempts : Z) : Exec JsValue :=
  poll_passes (Z.to_nat maxAttempts) predictionId.

(** [ReplicateClient.generateImage(params)]; [now] is [Date.now()].  The
    [provider] of the result is [this.provider], whatever the constructor
    was given for it. *)
Definition replicate_generateImage (params : gmap string JsValue) (now : Z)
  : Exec JsValue :=
  match _validateParams this params ["prompt"; "model"] with
  | Some e => throw (TError e)
  | None =>
      prediction <- _makeRequest this env "/predictions" default_retries ;;
      id <- member prediction "id" ;;
      result <- _pollPrediction id 60 ;;
      output <- member result "output" ;;
      ret (VObj [("success", VBool true);
                 ("type", VStr "image");
                 ("provider", VStr (client_provider this));
                 ("model", param params "model");
                 ("images", if isArray output then output else VArr [output]);
                 ("cost", VObj [("amount", VNum 0); ("currency", VStr "USD");
                                ("estimated", VBool true)]);
                 ("metadata", VObj [("prompt", param params "prompt");
                                    ("predictionId", id);
                                    ("timestamp", VNum now)])])
  end.

(** [AnthropicClient.generateText(params)]. *)
Definition anthropic_generateText (params : gmap string JsValue) (now : Z)
  : Exec JsValue :=
  match _validateParams this params ["prompt"; "model"] with
  | Some e => throw (TError e)
  | None =>
      response <- _makeRequest this env "/messages" default_retries ;;
      content <- member response "content" ;;
      first <- first_element content ;;
      text <- member first "text" ;;
      ret (VObj [("success", VBool true);
                 ("type", VStr "text");
                 ("provider", VStr (client_provider this));
                 ("model", param params "model");
                 ("text", text);
                 ("cost", VObj [("amount", VNum 0); ("currency", VStr "USD");
                                ("estimated", VBool true)]);
                 ("metadata", VObj [("prompt", param params "prompt");
                                    ("timestamp", VNum now)])])
  end.

(** [MidjourneyClient.generateImage(params)]. *)
Definition midjourney_generateImage (params : gmap string JsValue) : Exec JsValue :=
  match _validateParams this params ["prompt"] with
  | Some e => throw (TError e)
  | None =>
      throw (TError (new_Error "Midjourney client requires specific API integration"))
  end.

End Clients.

(** ** Vocabulary for the provider clients *)





(** The value is the parsed body of a 2xx answer of the network. *)
Definition parsed_success_body (env : Env) (v : JsValue) : Prop :=
  exists n r, fetch_script env n = Resolved r /\ 200 <= status r <= 299 /\
              body r = JsonParsed v.

Definition still_processing : FetchOutcome :=
  Resolved {| status := 200; statusText := "OK"; retry_after := None;
              body := JsonParsed (VObj [("id", VStr "p1");
                                        ("status", VStr "processing")]) |}.

(** The client [new AnthropicClient(apiKey)] builds. *)
Definition AnthropicClient (key : string) : BaseAPIClient :=
  {| apiKey := key; baseURL := "https://api.anthropic.com/v1";
     client_provider := "anthropic"; timeout := 60000 |}.

(** [content[0]] is missing: no [content], or an empty one. *)
Definition no_first_content (response : JsValue) : Prop :=
  get_prop response "content" = VArr [] \/
  get_prop response "content" = VObj [] \/
  get_prop response "content" = VStr EmptyString \/
  (exists b, get_prop response "content" = VBool b) \/
  (exists n, get_prop response "content" = VNum n).

Definition empty_message : FetchOutcome :=
  Resolved {| status := 200; statusText := "OK"; retry_after := None;
              body := JsonParsed (VObj [("content", VArr [])]) |}.

Definition succeeded_prediction : FetchOutcome :=
  Resolved {| status := 200; statusText := "OK"; retry_after := None;
              body := JsonParsed (VObj [("id", VStr "p1");
                                        ("status", VStr "succeeded");
                                        ("output", VStr "https://img/1.png")]) |}.

(** The parameters of a generation. *)
Definition prompt_and_model : gmap string JsValue :=
  {[ "prompt" := VStr "a castle"; "model" := VStr "m1" ]}.

(** A network that answers [first] to the first [k] fetches and [then_]
    to the others. *)
Definition first_then (k : nat) (first then_ : FetchOutcome) : Env :=
  {| fetch_script := fun n => if (n <? k)%nat then first else then_;
     random_script := fun _ => 1 # 2 |}.

(** ** More vocabulary for the queue *)

Module QueueTiming.
Import QueueManager.

(** The clock reading an outside event carries. *)
Definition clock (l : Label) : Z :=
  match l with
  | CallEnqueue _ now => now
  | Resume now => now
  | ExecuteSettles _ now => now
  | ExecuteRejectsWith _ now => now
  end.

(** [Date.now()] never goes back from one event to the next. *)
Definition clock_runs_forward (ls : list Label) : Prop :=
  StronglySorted Z.le (map clock ls).

(** The promises fulfilled or rejected, in the order of settling. *)
Definition settled (obs : list Obs) : list nat :=
  omap (fun o => match o with
                 | ObsResolve item _ | ObsReject item _ | ObsRejectWith item _ =>
                     Some (promise item)
                 | _ => None
                 end) obs.

(** The promises of the entries the [catch] block threw for: they left
    the manager and stay pending. *)
Definition dropped (obs : list Obs) : list nat :=
  omap (fun o => match o with ObsThrow item _ => Some (promise item) | _ => None end) obs.

(** The promises of the entries that left the manager, settled or
    dropped, in the order of leaving. *)
Definition departed (obs : list Obs) : list nat :=
  omap (fun o => match o with
                 | ObsResolve item _ | ObsReject item _ | ObsRejectWith item _
                 | ObsThrow item _ => Some (promise item)
                 | _ => None
                 end) obs.

(** The executions that have come to their end, by the promise of the
    entry: fulfilled, rejected, put back after a RATE_LIMIT error, or
    left behind by the throw of the [catch] block. *)
Definition ended (obs : list Obs) : list nat :=
  omap (fun o => match o with
                 | ObsResolve item _ | ObsReject item _ | ObsRejectWith item _
                 | ObsThrow item _ | ObsUnshift item => Some (promise item)
                 | _ => None
                 end) obs.

(** The resumption of an [await], as against a call or a settlement. *)
Definition is_resume (l : Label) : Prop :=
  match l with
  | Resume _ => True
  | _ => False
  end.

(** Events that follow each other in time, none before [t]. *)
Definition from_time (t : Z) (ls : list Label) : Prop :=
  clock_runs_forward ls /\ Forall (fun l => t <= clock l) ls.

(** The execution under way, if any. *)
Definition in_flight (st : State) : list nat :=
  match phase st with
  | AwaitExecute item => [promise item]
  | _ => []
  end.

(** The window of the provider of [item] has run out by [t]. *)
Definition window_over (limits : gmap string RateLimit) (item : Item) (t : Z) : Prop :=
  forall limit, limits !! provider (request item) = Some limit -> resetTime limit <= t.

(** What holds of the rate limits at the clock reading [t] when the clock
    never goes back: every record counts one execution and ends within a
    minute; an entry that is being checked waits for the end of the
    window of its provider, and one that is executed has seen it. *)
Record timed (st : State) (t : Z) : Prop := mkTimed {
  one_per_window :
    forall p limit, rateLimits st !! p = Some limit ->
                    count limit = 1 /\ resetTime limit <= t + 60000;
  checked_until_reset :
    forall item timer, phase st = AwaitCheckRateLimit item timer ->
      match timer with
      | Some tm => window_over (rateLimits st) item (set_at tm + waitTime tm)
      | None => window_over (rateLimits st) item t
      end;
  executed_after_reset :
    forall item, phase st = AwaitExecute item -> window_over (rateLimits st) item t
}.

(** One failed execution and the two resumptions that lead to the next,
    all at the clock reading [t]. *)
Definition retry_cycle (error : JsError) (t : Z) : list Label :=
  [ExecuteSettles (inr error) t; Resume t; Resume t].

Fixpoint retry_cycles (n : nat) (error : JsError) (t : Z) : list Label :=
  match n with
  | O => []
  | S k => retry_cycle error t ++ retry_cycles k error t
  end.

(** [request_a] resolves at 1000; a second request for the same provider
    is submitted at 2000. *)
Definition second_request_scenario : list Label :=
  [CallEnqueue request_a 0; Resume 0; ExecuteSettles (inl VNull) 1000;
   CallEnqueue request_a 2000].

End QueueTiming.

(** * Properties *)

(** ** Backoff *)

Lemma backoff_base_le (i : nat) :
  Z.min (baseDelay * 2 ^ Z.of_nat i) maxDelay <= maxDelay.
Proof. apply Z.le_min_r. Qed.

Lemma backoff_base_mono (i : nat) :
  Z.min (baseDelay * 2 ^ Z.of_nat i) maxDelay
  <= Z.min (baseDelay * 2 ^ Z.of_nat (S i)) maxDelay.
Proof.
  apply Z.min_le_compat_r.
  rewrite Nat2Z.inj_succ, Z.pow_succ_r by lia.
  assert (0 < 2 ^ Z.of_nat i) by (apply Z.pow_pos_nonneg; lia).
  unfold baseDelay. lia.
Qed.

Lemma backoff_pointwise_mono (i : nat) (rnd : Q) :
  (_getExponentialBackoff i rnd <= _getExponentialBackoff (S i) rnd)%Q.
Proof.
  unfold _getExponentialBackoff.
  apply Qplus_le_l. rewrite <- Zle_Qle. apply backoff_base_mono.
Qed.

Lemma expectation_mono (dist : list (Q * Q)) (f g : Q -> Q) :
  Forall (fun pv => (0 <= fst pv)%Q) dist ->
  (forall x, (f x <= g x)%Q) ->
  (expectation dist f <= expectation dist g)%Q.
Proof.
  intros Hpos Hfg. induction Hpos as [|pv dist Hp _ IH]; simpl.
  - apply Qle_refl.
  - apply Qplus_le_compat; [|exact IH].
    specialize (Hfg (snd pv)). nra.
Qed.

(** The mean delay is the capped exponential plus the mean jitter. *)
Lemma expectation_backoff (dist : list (Q * Q)) (i : nat) :
  (expectation dist (_getExponentialBackoff i)
   == inject_Z (Z.min (baseDelay * 2 ^ Z.of_nat i) maxDelay) * total_mass dist
      + 1000 * expectation dist (fun r => r))%Q.
Proof.
  unfold total_mass. induction dist as [|[p x] dist IH]; simpl.
  - ring.
  - rewrite IH. unfold _getExponentialBackoff. simpl. ring.
Qed.

(** C5. For every attempt index [i] and every value [rnd] of
    [Math.random()] in [0, 1), that is every jitter [j = rnd * 1000] in
    [0, 1000), [_getExponentialBackoff i] is [min(1000 * 2^i, 30000) + j]
    milliseconds; it never exceeds 31000; and its expected value, under any
    distribution of [Math.random()], is non-decreasing in [i] (at every
    index, so in particular up to the cap). *)
Theorem backoff_formula_bound_and_monotone_mean (i : nat) (rnd : Q) :
  (0 <= rnd)%Q -> (rnd < 1)%Q ->
  let j := (rnd * 1000)%Q in
  (0 <= j)%Q /\ (j < 1000)%Q /\
  (_getExponentialBackoff i rnd == inject_Z (Z.min (1000 * 2 ^ Z.of_nat i) 30000) + j)%Q /\
  (_getExponentialBackoff i rnd <= 31000)%Q /\
  (forall dist, is_distribution dist ->
     (expectation dist (_getExponentialBackoff i)
      <= expectation dist (_getExponentialBackoff (S i)))%Q).
Proof.
  intros H0 H1 j. subst j.
  split; [lra|]. split; [lra|]. split; [reflexivity|]. split.
  - unfold _getExponentialBackoff.
    pose proof (backoff_base_le i) as Hle. rewrite Zle_Qle in Hle.
    unfold maxDelay in Hle at 2. change (inject_Z 30000) with 30000%Q in Hle. lra.
  - intros dist [Hd _]. apply expectation_mono.
    + eapply Forall_impl; [exact Hd|]. simpl. intros pv Hpv. apply Hpv.
    + intros x. apply backoff_pointwise_mono.
Qed.

Lemma backoff_formula_bound_and_monotone_mean_witness :
  (_getExponentialBackoff 3 (1 # 2) <= 31000)%Q.
Proof.
  apply (backoff_formula_bound_and_monotone_mean 3 (1 # 2)); lra.
Defined.

(** ** Parameter validation *)

Lemma filter_sublist {A} (f : A -> bool) (l : list A) : sublist (List.filter f l) l.
Proof.
  induction l as [|x l IH]; simpl; [constructor|].
  destruct (f x); [apply sublist_skip | apply sublist_cons]; exact IH.
Qed.

Lemma missing_params_spec params required key :
  In key (missing_params params required)
  <-> In key required /\ truthy (param params key) = false.
Proof.
  unfold missing_params. rewrite filter_In, negb_true_iff. reflexivity.
Qed.

Lemma validateParams_throws_iff this params required :
  is_Some (_validateParams this params required)
  <-> missing_params params required <> [].
Proof.
  unfold _validateParams.
  destruct (missing_params params required) as [|k ks]; simpl.
  - split; [intros [e He]; discriminate | congruence].
  - split; [discriminate | eauto].
Qed.

(** C10. [_validateParams] throws iff some required field has a falsy
    value in [params]; what it throws is a VALIDATION_ERROR whose
    [details.missing] holds exactly the required names with a falsy value,
    in the order (and multiplicity) of the required list; a field that is
    present but is the empty string, 0, null or false counts as missing. *)
Theorem validateParams_throws_iff_falsy_required
    (this : BaseAPIClient) (params : gmap string JsValue) (required : list string) :
  (is_Some (_validateParams this params required)
   <-> exists key, In key required /\ truthy (param params key) = false) /\
  (forall e, _validateParams this params required = Some e ->
     type e = Some ERROR_TYPES.VALIDATION_ERROR /\
     exists missing,
       details e = MissingDetails missing /\
       missing = List.filter (fun key => negb (truthy (param params key))) required /\
       (forall key, In key missing
                    <-> In key required /\ truthy (param params key) = false) /\
       sublist missing required) /\
  (forall key v, In key required -> params !! key = Some v ->
     In v [VStr EmptyString; VNum 0; VNull; VBool false] ->
     is_Some (_validateParams this params required)).
Proof.
  assert (Hiff : is_Some (_validateParams this params required)
                 <-> exists key, In key required /\ truthy (param params key) = false).
  { rewrite validateParams_throws_iff. split.
    - intros Hne. destruct (missing_params params required) as [|k ks] eqn:E; [congruence|].
      exists k. apply missing_params_spec. rewrite E. left. reflexivity.
    - intros [k Hk] E. apply missing_params_spec in Hk. rewrite E in Hk. destruct Hk. }
  split; [exact Hiff|]. split.
  - intros e He. unfold _validateParams in He.
    destruct (0 <? Z.of_nat (length (missing_params params required))); [|discriminate].
    injection He as <-. split; [reflexivity|].
    exists (missing_params params required). split; [reflexivity|].
    split; [reflexivity|]. split; [apply missing_params_spec | apply filter_sublist].
  - intros key v Hin Hget Hv. apply Hiff. exists key. split; [exact Hin|].
    unfold param. rewrite Hget. simpl in *.
    destruct Hv as [<-|[<-|[<-|[<-|[]]]]]; reflexivity.
Qed.

Lemma validateParams_throws_iff_falsy_required_witness :
  is_Some (_validateParams test_client
             {[ "prompt" := VStr "test"; "model" := VStr EmptyString ]}
             ["prompt"; "model"]).
Proof.
  apply (proj2 (proj2 (validateParams_throws_iff_falsy_required test_client
                  {[ "prompt" := VStr "test"; "model" := VStr EmptyString ]}
                  ["prompt"; "model"]))
           "model" (VStr EmptyString)).
  - right. left. reflexivity.
  - reflexivity.
  - left. reflexivity.
Defined.

Example validateParams_missing_model :
  _validateParams test_client {[ "prompt" := VStr "test" ]} ["prompt"; "model"]
  = Some {| name := "Error"; message := "Missing required parameters: model";
            type := Some "VALIDATION_ERROR"; provider := Some "test";
            details := MissingDetails ["model"] |}.
Proof. reflexivity. Qed.

Example validateParams_all_present :
  _validateParams test_client
    {[ "prompt" := VStr "test"; "model" := VStr "test-model" ]} ["prompt"; "model"]
  = None.
Proof. reflexivity. Qed.

(** ** One pass of the retry loop *)

Section MakeRequestFacts.

Variable this : BaseAPIClient.
Variable env : Env.
Variable endpoint : string.
Variable retries : Z.

Local Arguments Z.eqb : simpl never.
Local Arguments Z.leb : simpl never.
Local Arguments Z.ltb : simpl never.
Local Arguments Z.of_nat : simpl never.
Local Arguments String.eqb : simpl never.
Local Arguments String.append : simpl never.
Local Arguments includes : simpl never.
Local Arguments parseInt : simpl never.
Local Arguments js_to_string : simpl never.
Local Arguments _getExponentialBackoff : simpl never.

Ltac exec_unfold :=
  unfold iteration, try_block, catch_block, backoff, response_json,
    error_message;
  unfold try_catch, bind, fetch, Math_random, _sleep, ret, throw;
  cbn beta.

Lemma for_attempts_throw passes attempt lastError w t w' :
  iteration this env endpoint retries attempt lastError w = (Throw t, w') ->
  for_attempts this env endpoint retries (S passes) attempt lastError w = (Throw t, w').
Proof. intros H. simpl. unfold bind. rewrite H. reflexivity. Qed.

Lemma for_attempts_return passes attempt lastError w v le w' :
  iteration this env endpoint retries attempt lastError w = (Normal (Return v, le), w') ->
  for_attempts this env endpoint retries (S passes) attempt lastError w = (Normal v, w').
Proof. intros H. simpl. unfold bind. rewrite H. reflexivity. Qed.

Lemma for_attempts_continue passes attempt lastError w le w' :
  iteration this env endpoint retries attempt lastError w = (Normal (Continue, le), w') ->
  for_attempts this env endpoint retries (S passes) attempt lastError w = for_attempts this env endpoint retries passes (S attempt) le w'.
Proof. intros H. simpl. unfold bind. rewrite H. reflexivity. Qed.

Lemma makeRequest_unfold :
  0 <= retries ->
  _makeRequest this env endpoint retries = for_attempts this env endpoint retries (S (Z.to_nat retries)) 0%nat TUndefined.
Proof.
  intros H. unfold _makeRequest.
  replace (Z.to_nat (retries + 1)) with (S (Z.to_nat retries)) by lia. reflexivity.
Qed.


Lemma ok_true_iff r : ok r = true <-> 200 <= status r <= 299.
Proof. unfold ok. rewrite andb_true_iff, !Z.leb_le. lia. Qed.

(** A 401 or 403 answer, or a thrown value typed AUTH_ERROR or
    VALIDATION_ERROR, ends the pass by throwing, after the fetch alone. *)
Lemma iteration_auth_or_validation attempt lastError w :
  auth_or_validation_failure (fetch_script env (fetch_calls w)) ->
  iteration this env endpoint retries attempt lastError w
  = (Throw (TError (auth_or_validation_error this (fetch_script env (fetch_calls w)))),
     after_fetch w).
Proof.
  intros H. unfold after_fetch. exec_unfold.
  destruct (fetch_script env (fetch_calls w)) as [r|e]; simpl in *.
  - assert ((status r =? 429) = false) as -> by lia.
    assert (((status r =? 401) || (status r =? 403)) = true) as ->
      by (apply orb_true_iff; lia).
    reflexivity.
  - unfold type_is. destruct H as [-> | ->]; reflexivity.
Qed.





Lemma fetch_count_app tr1 tr2 :
  fetch_count (tr1 ++ tr2) = (fetch_count tr1 + fetch_count tr2)%nat.
Proof. unfold fetch_count. rewrite List.filter_app, length_app. reflexivity. Qed.

Lemma fetch_count_attempts_trace delays : forall first,
  fetch_count (attempts_trace first delays) = S (length delays).
Proof.
  induction delays as [|d ds IH]; intros first; [reflexivity|].
  change (attempts_trace first (d :: ds))
    with ([EvFetch first; EvSleep d] ++ attempts_trace (S first) ds).
  rewrite fetch_count_app, IH. reflexivity.
Qed.

Lemma sleeps_attempts_trace delays : forall first,
  sleeps (attempts_trace first delays) = delays.
Proof.
  induction delays as [|d ds IH]; intros first; [reflexivity|].
  cbn. f_equal. apply IH.
Qed.




(** *** Every way a pass can end *)





(** *** What a call of [_makeRequest] does *)




(** C4. A 401 or 403 answer, and a thrown value typed AUTH_ERROR or
    VALIDATION_ERROR, end the call in the very pass that meets them: the
    error is thrown after the fetch of that attempt, with nothing slept
    and nothing fetched again, however many passes the budget still
    allows.  In particular a call whose first attempt fails that way
    makes exactly one attempt, for every retry budget. *)
Theorem auth_and_validation_errors_are_never_retried :
  (forall passes attempt lastError w,
     auth_or_validation_failure (fetch_script env (fetch_calls w)) ->
     let e := auth_or_validation_error this (fetch_script env (fetch_calls w)) in
     for_attempts this env endpoint retries (S passes) attempt lastError w = (Throw (TError e), after_fetch w) /\
     (type e = Some ERROR_TYPES.AUTH_ERROR \/
      type e = Some ERROR_TYPES.VALIDATION_ERROR)) /\
  (forall w,
     0 <= retries ->
     auth_or_validation_failure (fetch_script env (fetch_calls w)) ->
     let e := auth_or_validation_error this (fetch_script env (fetch_calls w)) in
     _makeRequest this env endpoint retries w = (Throw (TError e), after_fetch w) /\
     fetch_count (trace (after_fetch w)) = S (fetch_count (trace w)) /\
     sleeps (trace (after_fetch w)) = sleeps (trace w)).
Proof.
  split.
  - intros passes attempt lastError w H e. split.
    + apply for_attempts_throw, iteration_auth_or_validation, H.
    + subst e. destruct (fetch_script env (fetch_calls w)) as [r|e]; cbn in *;
        [left; reflexivity | exact H].
  - intros w Hret H e. rewrite makeRequest_unfold by exact Hret. split.
    + apply for_attempts_throw, iteration_auth_or_validation, H.
    + unfold after_fetch. cbn [trace]. rewrite fetch_count_app.
      unfold sleeps. rewrite omap_app. cbn.
      split; [lia | apply app_nil_r].
Qed.

End MakeRequestFacts.

(** ** [_makeRequest] on the scenarios *)






(** The run of that call: the delay of the header, then a backoff. *)
Example mixed_failures_end_in_a_timeout :
  _makeRequest test_client mixed_failures "/test" 2 world0
  = (Throw (TError
       {| name := "Error"; message := "Request timed out";
          type := Some "NETWORK_ERROR"; provider := Some "test";
          details := TimeoutDetails 5000 |}),
     {| fetch_calls := 3; random_calls := 1;
        trace := [EvFetch 0; EvSleep (Ms (inject_Z (2 * 1000)));
                  EvFetch 1; EvSleep (Ms (inject_Z 2000 + (1 # 2) * 1000));
                  EvFetch 2] |}).
Proof. reflexivity. Qed.


Lemma rate_limited_three_times :
  _makeRequest test_client (always too_many_requests) "/test" 2 world0
  = (Throw (TError
       {| name := "Error"; message := "Rate limit exceeded";
          type := Some "RATE_LIMIT"; provider := Some "test";
          details := RateLimitDetails 429 None |}),
     {| fetch_calls := 3; random_calls := 3;
        trace := [EvFetch 0; EvSleep (Ms (inject_Z 1000 + (1 # 2) * 1000));
                  EvFetch 1; EvSleep (Ms (inject_Z 2000 + (1 # 2) * 1000));
                  EvFetch 2] |}).
Proof. reflexivity. Qed.

Lemma auth_and_validation_errors_are_never_retried_witness :
  _makeRequest test_client (always unauthorized) "/test" 3 world0
  = (Throw (TError (auth_or_validation_error test_client unauthorized)),
     after_fetch world0) /\
  fetch_count (trace (after_fetch world0)) = S (fetch_count (trace world0)) /\
  sleeps (trace (after_fetch world0)) = sleeps (trace world0).
Proof.
  apply (proj2 (auth_and_validation_errors_are_never_retried
                  test_client (always unauthorized) "/test" 3) world0).
  - lia.
  - left. reflexivity.
Defined.

(** ** [_makeRequest] in any network *)

Section MakeRequestAnywhere.

Variable this : BaseAPIClient.
Variable env : Env.
Variable endpoint : string.
Variable retries : Z.

Local Arguments Z.eqb : simpl never.
Local Arguments Z.leb : simpl never.
Local Arguments Z.ltb : simpl never.
Local Arguments Z.of_nat : simpl never.
Local Arguments String.eqb : simpl never.
Local Arguments String.append : simpl never.
Local Arguments includes : simpl never.
Local Arguments parseInt : simpl never.
Local Arguments js_to_string : simpl never.
Local Arguments _getExponentialBackoff : simpl never.
Local Arguments retry_after_delay : simpl never.

Ltac exec_unfold :=
  unfold iteration, try_block, catch_block, backoff, response_json,
    error_message;
  unfold try_catch, bind, fetch, Math_random, _sleep, ret, throw;
  cbn beta.

Ltac case_split :=
  repeat (cbn;
          match goal with
          | |- context [if ?b then _ else _] => destruct b eqn:?
          | |- context [match retry_after ?r with _ => _ end] =>
              destruct (retry_after r) eqn:?
          | |- context [match body ?r with _ => _ end] => destruct (body r) eqn:?
          | |- context [match ?v with VUndefined => _ | _ => _ end] => destruct v
          end).

(** What a slept delay is, before anything is known of [Math.random()]. *)
Local Abbreviation drawn_or_hinted attempt d :=
  ((exists n r h, fetch_script env n = Resolved r /\ status r = 429 /\
                  retry_after r = Some h /\ h <> EmptyString /\
                  d = retry_after_delay h) \/
   (exists k, d = Ms (_getExponentialBackoff attempt (random_script env k)))).

(** One pass, whatever the network does: one fetch, and at most one sleep,
    which is slept only when a further pass follows. *)
Lemma iteration_shape attempt lastError w :
  fetch_calls (snd (iteration this env endpoint retries attempt lastError w))
  = S (fetch_calls w) /\
  match iteration this env endpoint retries attempt lastError w with
  | (Normal (Continue, _), w') =>
      (Z.of_nat attempt < retries /\
       exists d, trace w' = trace w ++ [EvFetch (fetch_calls w); EvSleep d] /\
                 drawn_or_hinted attempt d) \/
      (retries <= Z.of_nat attempt /\
       trace w' = trace w ++ [EvFetch (fetch_calls w)])
  | (_, w') => trace w' = trace w ++ [EvFetch (fetch_calls w)]
  end.
Proof.
  exec_unfold.
  destruct (fetch_script env (fetch_calls w)) as [r|e] eqn:Hf; [|destruct e as [n m ty p d]];
    case_split; cbn.
  all: split; [reflexivity|].
  all: try reflexivity.
  all: try (right; split; [apply Z.ltb_ge; assumption | reflexivity]).
  all: left; (split; [apply Z.ltb_lt; assumption|]); eexists;
    (split; [rewrite <- app_assoc; reflexivity|]).
  all: try (right; eexists; reflexivity).
  all: left;
    match goal with
    | Hf : fetch_script env (fetch_calls ?w) = Resolved ?r,
      H : retry_after ?r = Some ?h |- _ => exists (fetch_calls w), r, h
    end;
    repeat split; try assumption; try reflexivity.
  all: try (apply Z.eqb_eq; assumption).
  all: intros ->; discriminate.
Qed.

(** The whole loop, whatever the network does. *)
Lemma for_attempts_shape passes : forall attempt lastError w,
  Z.of_nat attempt + Z.of_nat passes = retries + 1 ->
  (1 <= passes)%nat ->
  exists delays,
    trace (snd (for_attempts this env endpoint retries passes attempt lastError w))
    = trace w ++ attempts_trace (fetch_calls w) delays /\
    (length delays < passes)%nat /\
    fetch_calls (snd (for_attempts this env endpoint retries passes attempt lastError w))
    = (fetch_calls w + S (length delays))%nat /\
    (forall i d, delays !! i = Some d -> drawn_or_hinted (attempt + i)%nat d).
Proof.
  induction passes as [|passes IH]; intros attempt lastError w Hsum Hpos; [lia|].
  destruct (iteration_shape attempt lastError w) as [Hcalls Hshape].
  cbn [for_attempts]. unfold bind.
  destruct (iteration this env endpoint retries attempt lastError w)
    as [[[[|v] le]|t] w1] eqn:Hit; cbn [fst snd] in *.
  - destruct Hshape as [[Hlt (d & Htr & Hd)]|[Hge Htr]].
    + destruct (IH (S attempt) le w1) as (ds & Htr' & Hlen & Hcalls' & Hds); [lia|lia|].
      exists (d :: ds). rewrite Htr', Hcalls', Htr, Hcalls, <- app_assoc.
      split; [reflexivity|]. split; [cbn; lia|]. split; [cbn; lia|].
      intros [|i] d' Hd'; cbn in Hd'.
      * injection Hd' as <-. rewrite Nat.add_0_r. exact Hd.
      * replace (attempt + S i)%nat with (S attempt + i)%nat by lia. apply Hds, Hd'.
    + assert (passes = 0%nat) as -> by lia. cbn.
      exists []. rewrite Htr, Hcalls. cbn.
      split; [reflexivity|]. split; [lia|]. split; [lia|]. intros i d Hd. discriminate.
  - cbn. exists []. rewrite Hshape, Hcalls. cbn.
    split; [reflexivity|]. split; [lia|]. split; [lia|]. intros i d Hd. discriminate.
  - cbn. exists []. rewrite Hshape, Hcalls. cbn.
    split; [reflexivity|]. split; [lia|]. split; [lia|]. intros i d Hd. discriminate.
Qed.

Lemma fetch_count_app' tr1 tr2 :
  fetch_count (tr1 ++ tr2) = (fetch_count tr1 + fetch_count tr2)%nat.
Proof. unfold fetch_count. rewrite List.filter_app, length_app. reflexivity. Qed.

Lemma sleeps_app tr1 tr2 : sleeps (tr1 ++ tr2) = sleeps tr1 ++ sleeps tr2.
Proof. apply omap_app. Qed.

(** X1. Whatever the network does, a call with a budget that is not
    negative fetches at most [retries + 1] times and sleeps only between
    two fetches: what it adds to the trace is a fetch, then for each
    further attempt one sleep and one fetch, with at most [retries] such
    further attempts. *)
Theorem makeRequest_stays_within_budget (w : World) :
  0 <= retries ->
  let w' := snd (_makeRequest this env endpoint retries w) in
  exists delays,
    trace w' = trace w ++ attempts_trace (fetch_calls w) delays /\
    Z.of_nat (length delays) <= retries /\
    fetch_calls w' = (fetch_calls w + S (length delays))%nat /\
    fetch_count (trace w') = (fetch_count (trace w) + S (length delays))%nat /\
    sleeps (trace w') = sleeps (trace w) ++ delays.
Proof.
  intros Hret w'. subst w'. unfold _makeRequest.
  destruct (for_attempts_shape (Z.to_nat (retries + 1)) 0%nat TUndefined w)
    as (delays & Htr & Hlen & Hcalls & _); [lia|lia|].
  exists delays. rewrite Htr, Hcalls.
  split; [reflexivity|]. split; [lia|]. split; [reflexivity|].
  rewrite fetch_count_app', sleeps_app, fetch_count_attempts_trace, sleeps_attempts_trace.
  split; reflexivity.
Qed.

Lemma backoff_in_range attempt rnd :
  (0 <= rnd)%Q -> (rnd < 1)%Q ->
  backoff_delay attempt (Ms (_getExponentialBackoff attempt rnd)) /\
  (1000 <= _getExponentialBackoff attempt rnd)%Q /\
  (_getExponentialBackoff attempt rnd < 31000)%Q.
Proof.
  intros H0 H1. split.
  - exists (rnd * 1000)%Q. split; [lra|]. split; [lra|]. reflexivity.
  - unfold _getExponentialBackoff.
    pose proof (backoff_base_le attempt) as Hle.
    assert (Hge : baseDelay <= Z.min (baseDelay * 2 ^ Z.of_nat attempt) maxDelay).
    { apply Z.min_glb; [|unfold baseDelay, maxDelay; lia].
      assert (0 < 2 ^ Z.of_nat attempt) by (apply Z.pow_pos_nonneg; lia).
      unfold baseDelay. lia. }
    rewrite Zle_Qle in Hle, Hge. unfold maxDelay in Hle at 2. unfold baseDelay in Hge at 1.
    change (inject_Z 30000) with 30000%Q in Hle.
    change (inject_Z 1000) with 1000%Q in Hge. lra.
Qed.


(** A 2xx answer whose body parses ends the pass with that body. *)
Lemma iteration_success attempt lastError w r v :
  fetch_script env (fetch_calls w) = Resolved r ->
  200 <= status r <= 299 ->
  body r = JsonParsed v ->
  iteration this env endpoint retries attempt lastError w
  = (Normal (Return v, lastError), after_fetch w).
Proof.
  intros Hf Hok Hbody. unfold after_fetch. exec_unfold. rewrite Hf. cbn.
  assert ((status r =? 429) = false) as -> by lia.
  assert (((status r =? 401) || (status r =? 403)) = false) as ->
    by (apply orb_false_iff; lia).
  assert (ok r = true) as -> by (unfold ok; apply andb_true_iff; lia).
  cbn. rewrite Hbody. reflexivity.
Qed.



Lemma untyped_type_is e t :
  type_truthy e = false -> t <> EmptyString -> type_is e t = false.
Proof.
  unfold type_truthy, type_is. destruct (type e) as [s|]; [|reflexivity].
  intros Hs Ht. apply negb_false_iff, String.eqb_eq in Hs as ->.
  apply String.eqb_neq. congruence.
Qed.

(** The [catch] block on a value it does not recognise: a backoff sleep
    when a further pass follows, nothing otherwise; the value becomes
    [lastError]. *)
Lemma catch_block_unrecognised attempt e w :
  unrecognised e ->
  catch_block this env endpoint retries attempt (TError e) w
  = if Z.of_nat attempt <? retries
    then (Normal Continue,
          {| fetch_calls := fetch_calls w;
             random_calls := S (random_calls w);
             trace := trace w
                      ++ [EvSleep (Ms (_getExponentialBackoff attempt
                                         (random_script env (random_calls w))))] |})
    else (Normal Continue, w).
Proof.
  intros (Hty & Htimeout & Htransport). unfold catch_block.
  rewrite !untyped_type_is by (assumption || discriminate).
  unfold is_timeout in Htimeout. unfold is_transport_failure in Htransport.
  rewrite Htimeout, Htransport, Hty.
  destruct (Z.of_nat attempt <? retries); reflexivity.
Qed.

Lemma iteration_unclassified attempt lastError w e :
  unclassified_failure (fetch_script env (fetch_calls w)) e ->
  iteration this env endpoint retries attempt lastError w
  = if Z.of_nat attempt <? retries
    then (Normal (Continue, TError e),
          {| fetch_calls := S (fetch_calls w);
             random_calls := S (random_calls w);
             trace := trace w
                      ++ [EvFetch (fetch_calls w);
                          EvSleep (Ms (_getExponentialBackoff attempt
                                         (random_script env (random_calls w))))] |})
    else (Normal (Continue, TError e), after_fetch w).
Proof.
  intros H. unfold after_fetch, iteration, try_catch, bind at 1, try_block, bind at 1, fetch.
  destruct (fetch_script env (fetch_calls w)) as [r|e'] eqn:Hf; cbn in H.
  - destruct H as [(Hok & Hbody & Hun)|((Hnok & H429 & H401 & H403) & Hbody & ->)].
    + assert ((status r =? 429) = false) as -> by lia.
      assert (((status r =? 401) || (status r =? 403)) = false) as ->
        by (apply orb_false_iff; lia).
      assert (ok r = true) as -> by (unfold ok; apply andb_true_iff; lia).
      cbn [negb]. unfold bind at 1, response_json. rewrite Hbody. unfold throw at 1.
      unfold bind at 1. rewrite (catch_block_unrecognised attempt e _ Hun).
      destruct (Z.of_nat attempt <? retries); cbn; rewrite <- ?app_assoc; reflexivity.
    + assert ((status r =? 429) = false) as -> by lia.
      assert (((status r =? 401) || (status r =? 403)) = false) as ->
        by (apply orb_false_iff; lia).
      assert (ok r = false) as -> by (unfold ok; apply andb_false_iff; lia).
      cbn [negb]. unfold bind at 1, try_catch, response_json. rewrite Hbody.
      unfold ret at 1. unfold bind at 1, error_message, throw at 1. unfold bind at 1.
      rewrite (catch_block_unrecognised attempt _ _);
        [|repeat split; reflexivity].
      destruct (Z.of_nat attempt <? retries); cbn; rewrite <- ?app_assoc; reflexivity.
  - destruct H as [-> Hun]. unfold bind at 1.
    rewrite (catch_block_unrecognised attempt e' _ Hun).
    destruct (Z.of_nat attempt <? retries); cbn; rewrite <- ?app_assoc; reflexivity.
Qed.

Lemma for_attempts_unclassified passes : forall attempt lastError w,
  Z.of_nat attempt + Z.of_nat passes = retries ->
  fetch_calls w = attempt ->
  (forall n, (attempt <= n <= attempt + passes)%nat ->
             exists e, unclassified_failure (fetch_script env n) e) ->
  (forall n, (0 <= random_script env n)%Q /\ (random_script env n < 1)%Q) ->
  exists e delays w',
    unclassified_failure (fetch_script env (attempt + passes)%nat) e /\
    for_attempts this env endpoint retries (S passes) attempt lastError w
    = (Throw (TError e), w') /\
    trace w' = trace w ++ attempts_trace attempt delays /\
    length delays = passes /\
    (forall i d, delays !! i = Some d -> backoff_delay (attempt + i)%nat d).
Proof.
  induction passes as [|passes IH]; intros attempt lastError w Hsum Hcalls Hfail Hrnd.
  - destruct (Hfail attempt) as [e He]; [lia|].
    pose proof He as Hit. rewrite <- Hcalls in Hit at 1.
    apply (iteration_unclassified attempt lastError w) in Hit.
    assert ((Z.of_nat attempt <? retries) = false) as Hge by lia. rewrite Hge in Hit.
    exists e, [], (after_fetch w). rewrite Nat.add_0_r.
    split; [exact He|]. split.
    { cbn [for_attempts]. unfold bind. rewrite Hit. reflexivity. }
    rewrite <- Hcalls. split; [reflexivity|]. split; [reflexivity|].
    intros i d Hd. discriminate.
  - destruct (Hfail attempt) as [e He]; [lia|].
    pose proof He as Hit. rewrite <- Hcalls in Hit at 1.
    apply (iteration_unclassified attempt lastError w) in Hit.
    assert ((Z.of_nat attempt <? retries) = true) as Hlt by lia. rewrite Hlt in Hit.
    rewrite (for_attempts_continue _ _ _ _ _ _ _ _ _ _ Hit).
    match goal with
    | |- context [for_attempts _ _ _ _ _ _ _ ?w1] =>
        destruct (IH (S attempt) (TError e) w1)
          as (e' & ds & w' & He' & Hrun & Htr & Hlen & Hds);
        [lia | cbn; lia | intros n Hn; apply Hfail; lia | exact Hrnd |]
    end.
    exists e', (Ms (_getExponentialBackoff attempt (random_script env (random_calls w))) :: ds), w'.
    replace (attempt + S passes)%nat with (S attempt + passes)%nat by lia.
    split; [exact He'|]. split; [exact Hrun|]. split.
    { rewrite Htr. cbn [trace]. rewrite Hcalls, <- app_assoc. reflexivity. }
    split; [cbn; lia|].
    intros [|i] d' Hd'; cbn in Hd'.
    + injection Hd' as <-. rewrite Nat.add_0_r.
      destruct (Hrnd (random_calls w)) as [H0 H1].
      apply (backoff_in_range attempt _ H0 H1).
    + replace (attempt + S i)%nat with (S attempt + i)%nat by lia. apply Hds, Hd'.
Qed.

(** X4. When every attempt the budget allows ends in a value the [catch]
    block does not recognise (an untyped exception of [fetch] that is
    neither an abort nor a fetch TypeError, a 2xx body that does not
    parse, a [null] error body), the call fetches [retries + 1] times,
    sleeps the backoff of the attempt between two fetches, and then
    throws the value of the last attempt as it is. *)
Theorem unrecognised_failures_are_retried_then_thrown_as_is :
  0 <= retries ->
  (forall n, (n <= Z.to_nat retries)%nat ->
             exists e, unclassified_failure (fetch_script env n) e) ->
  (forall n, (0 <= random_script env n)%Q /\ (random_script env n < 1)%Q) ->
  exists e delays w,
    unclassified_failure (fetch_script env (Z.to_nat retries)) e /\
    _makeRequest this env endpoint retries world0 = (Throw (TError e), w) /\
    trace w = attempts_trace 0 delays /\
    Z.of_nat (fetch_count (trace w)) = retries + 1 /\
    Z.of_nat (length delays) = retries /\
    (forall i d, delays !! i = Some d -> backoff_delay i d).
Proof.
  intros Hret Hfail Hrnd.
  destruct (for_attempts_unclassified (Z.to_nat retries) 0%nat TUndefined world0)
    as (e & delays & w & He & Hrun & Htr & Hlen & Hds);
    [lia | reflexivity | intros n Hn; apply Hfail; lia | exact Hrnd |].
  exists e, delays, w. cbn in Htr, He. split; [exact He|].
  rewrite makeRequest_unfold by exact Hret. split; [exact Hrun|].
  split; [exact Htr|]. rewrite Htr, fetch_count_attempts_trace.
  split; [lia|]. split; [lia|]. exact Hds.
Qed.

(** A pass returns only the parsed body of a 2xx answer to its fetch. *)
Lemma iteration_returns attempt lastError w v le w' :
  iteration this env endpoint retries attempt lastError w = (Normal (Return v, le), w') ->
  exists r, fetch_script env (fetch_calls w) = Resolved r /\
            200 <= status r <= 299 /\ body r = JsonParsed v.
Proof.
  exec_unfold.
  destruct (fetch_script env (fetch_calls w)) as [r|e] eqn:Hf; [|destruct e as [n m ty p d]];
    case_split; cbn; intros Heq; try discriminate.
  all: injection Heq as <- _ _; exists r; split; [reflexivity|];
    split; [apply ok_true_iff, negb_false_iff; assumption | assumption].
Qed.

Lemma for_attempts_returns passes : forall attempt lastError w v w',
  for_attempts this env endpoint retries passes attempt lastError w = (Normal v, w') ->
  exists n r, fetch_script env n = Resolved r /\ 200 <= status r <= 299 /\
              body r = JsonParsed v.
Proof.
  induction passes as [|passes IH]; intros attempt lastError w v w' Heq;
    [cbn in Heq; discriminate|].
  cbn [for_attempts] in Heq. unfold bind in Heq.
  destruct (iteration this env endpoint retries attempt lastError w)
    as [[[[|v0] le]|t] w1] eqn:Hit.
  - eapply IH, Heq.
  - cbn in Heq. injection Heq as <- <-.
    destruct (iteration_returns _ _ _ _ _ _ Hit) as (r & Hr). exists (fetch_calls w), r. exact Hr.
  - discriminate.
Qed.

Lemma makeRequest_returns w v w' :
  _makeRequest this env endpoint retries w = (Normal v, w') ->
  exists n r, fetch_script env n = Resolved r /\ 200 <= status r <= 299 /\
              body r = JsonParsed v.
Proof. unfold _makeRequest. apply for_attempts_returns. Qed.

End MakeRequestAnywhere.

(** ** The steps of the backoff *)

Lemma backoff_base_small (i : nat) :
  (i <= 4)%nat -> Z.min (baseDelay * 2 ^ Z.of_nat i) maxDelay = 1000 * 2 ^ Z.of_nat i.
Proof.
  intros Hi. unfold baseDelay, maxDelay. apply Z.min_l.
  assert (2 ^ Z.of_nat i <= 2 ^ 4) by (apply Z.pow_le_mono_r; lia).
  change (2 ^ 4) with 16 in H. lia.
Qed.

Lemma backoff_base_capped (i : nat) :
  (5 <= i)%nat -> Z.min (baseDelay * 2 ^ Z.of_nat i) maxDelay = 30000.
Proof.
  intros Hi. unfold baseDelay, maxDelay. apply Z.min_r.
  assert (2 ^ 5 <= 2 ^ Z.of_nat i) by (apply Z.pow_le_mono_r; lia).
  change (2 ^ 5) with 32 in H. lia.
Qed.

(** X5. Up to attempt 4 the backoff doubles, and the jitter never hides
    it: every delay of attempt [i <= 4] is strictly smaller than every
    delay of attempt [i + 1], whatever the two random numbers.  From
    attempt 5 on the delay stays between 30000 and 31000. *)
Theorem backoff_steps_up_until_the_cap (i : nat) (rnd rnd' : Q) :
  (0 <= rnd)%Q -> (rnd < 1)%Q -> (0 <= rnd')%Q -> (rnd' < 1)%Q ->
  ((i <= 4)%nat ->
     (_getExponentialBackoff i rnd < _getExponentialBackoff (S i) rnd')%Q) /\
  ((5 <= i)%nat ->
     (30000 <= _getExponentialBackoff i rnd)%Q /\
     (_getExponentialBackoff i rnd < 31000)%Q).
Proof.
  intros H0 H1 H0' H1'. unfold _getExponentialBackoff. split.
  - intros Hi. rewrite (backoff_base_small i Hi).
    assert (Hnext : 1000 * 2 ^ Z.of_nat i + 1000
                    <= Z.min (baseDelay * 2 ^ Z.of_nat (S i)) maxDelay).
    { assert (0 < 2 ^ Z.of_nat i) by (apply Z.pow_pos_nonneg; lia).
      assert (2 ^ Z.of_nat i <= 2 ^ 4) by (apply Z.pow_le_mono_r; lia).
      change (2 ^ 4) with 16 in *.
      rewrite Nat2Z.inj_succ, Z.pow_succ_r by lia.
      unfold baseDelay, maxDelay. apply Z.min_glb; lia. }
    rewrite Zle_Qle, inject_Z_plus in Hnext.
    change (inject_Z 1000) with 1000%Q in Hnext. lra.
  - intros Hi. rewrite (backoff_base_capped i Hi).
    change (inject_Z 30000) with 30000%Q. lra.
Qed.

Lemma backoff_steps_up_until_the_cap_witness :
  (_getExponentialBackoff 1 (9 # 10) < _getExponentialBackoff 2 0)%Q.
Proof.
  apply (proj1 (backoff_steps_up_until_the_cap 1 (9 # 10) 0
                  ltac:(lra) ltac:(lra) ltac:(lra) ltac:(lra))).
  lia.
Defined.

(** ** Provider clients *)

Section ClientFacts.

Variable this : BaseAPIClient.
Variable env : Env.

Local Arguments Z.eqb : simpl never.
Local Arguments Z.leb : simpl never.
Local Arguments Z.ltb : simpl never.
Local Arguments Z.of_nat : simpl never.
Local Arguments String.eqb : simpl never.
Local Arguments String.append : simpl never.
Local Arguments includes : simpl never.
Local Arguments parseInt : simpl never.
Local Arguments js_to_string : simpl never.
Local Arguments _getExponentialBackoff : simpl never.
Local Arguments retry_after_delay : simpl never.
Local Arguments _makeRequest : simpl never.

(** A first attempt that succeeds. *)
Lemma makeRequest_first_success endpoint retries w r v :
  0 <= retries ->
  fetch_script env (fetch_calls w) = Resolved r ->
  200 <= status r <= 299 ->
  body r = JsonParsed v ->
  _makeRequest this env endpoint retries w = (Normal v, after_fetch w).
Proof.
  intros Hret Hf Hok Hbody. rewrite makeRequest_unfold by exact Hret.
  eapply for_attempts_return, iteration_success; eassumption.
Qed.

Lemma strictly_equals_true v s : strictly_equals v s = true -> v = VStr s.
Proof.
  destruct v; cbn; try discriminate. intros H. apply String.eqb_eq in H. congruence.
Qed.





Lemma poll_passes_returns passes : forall predictionId w v w',
  poll_passes this env passes predictionId w = (Normal v, w') ->
  get_prop v "status" = VStr "succeeded" /\ parsed_success_body env v.
Proof.
  induction passes as [|passes IH]; intros predictionId w v w' Heq;
    [cbn in Heq; discriminate|].
  cbn [poll_passes] in Heq. unfold bind at 1 in Heq.
  destruct (_makeRequest this env ("/predictions/" +:+ js_to_string predictionId)
              default_retries w) as [[p|t] w1] eqn:Hreq; [|discriminate].
  apply makeRequest_returns in Hreq.
  unfold bind at 1, member in Heq.
  destruct p; try discriminate; unfold ret at 1 in Heq;
    match type of Heq with
    | context [strictly_equals ?s "succeeded"] =>
        destruct (strictly_equals s "succeeded") eqn:Hs;
        [ injection Heq as <- _; split;
          [apply strictly_equals_true, Hs | exact Hreq]
        | destruct (strictly_equals s "failed" || strictly_equals s "canceled");
          [discriminate | unfold bind at 1, _sleep at 1 in Heq; eapply IH, Heq] ]
    end.
Qed.

(** X8. Whatever the network answers, [_pollPrediction] returns nothing
    but a prediction that 'succeeded': the parsed body of a 2xx answer
    whose [status] is exactly that string. *)
Theorem pollPrediction_returns_only_succeeded_predictions
    (predictionId : JsValue) (maxAttempts : Z) (w w' : World) (v : JsValue) :
  _pollPrediction this env predictionId maxAttempts w = (Normal v, w') ->
  get_prop v "status" = VStr "succeeded" /\ parsed_success_body env v.
Proof. apply poll_passes_returns. Qed.

(** One request with the default budget: at most four fetches and three
    sleeps. *)
Lemma makeRequest_default_budget endpoint w :
  let w' := snd (_makeRequest this env endpoint default_retries w) in
  (fetch_count (trace w') <= fetch_count (trace w) + 4)%nat /\
  (length (sleeps (trace w')) <= length (sleeps (trace w)) + 3)%nat.
Proof.
  intros w'. subst w'. unfold _makeRequest.
  destruct (for_attempts_shape this env endpoint default_retries
              (Z.to_nat (default_retries + 1)) 0%nat TUndefined w)
    as (delays & Htr & Hlen & _); [unfold default_retries; lia ..|].
  rewrite Htr, fetch_count_app', sleeps_app, length_app,
    fetch_count_attempts_trace, sleeps_attempts_trace.
  unfold default_retries in Hlen. change (Z.to_nat (3 + 1)) with 4%nat in Hlen. lia.
Qed.

Lemma poll_passes_budget passes : forall predictionId w,
  let w' := snd (poll_passes this env passes predictionId w) in
  (fetch_count (trace w') <= fetch_count (trace w) + 4 * passes)%nat /\
  (length (sleeps (trace w')) <= length (sleeps (trace w)) + 4 * passes)%nat.
Proof.
  induction passes as [|passes IH]; intros predictionId w; [cbn; lia|].
  cbn zeta. cbn [poll_passes]. unfold bind, member, _sleep.
  pose proof (makeRequest_default_budget
                ("/predictions/" +:+ js_to_string predictionId) w) as Hone.
  cbn zeta in Hone.
  destruct (_makeRequest this env ("/predictions/" +:+ js_to_string predictionId)
              default_retries w) as [[p|t] w1]; cbn [snd] in Hone |- *; [|lia].
  destruct p; unfold throw, ret; cbn [snd]; try lia;
    match goal with
    | |- context [strictly_equals ?s "succeeded"] =>
        destruct (strictly_equals s "succeeded");
        [ cbn [snd]; lia
        | destruct (strictly_equals s "failed" || strictly_equals s "canceled");
          [ cbn [snd]; lia
          | match goal with
            | |- context [poll_passes _ _ _ _ ?w2] =>
                pose proof (IH predictionId w2) as Hrest
            end;
            cbn zeta in Hrest; cbn [trace] in Hrest;
            rewrite fetch_count_app', sleeps_app, length_app in Hrest;
            cbn in Hrest; lia ] ]
    end.
Qed.

(** X9. Whatever the network answers, [_pollPrediction] makes at most
    four fetches for each of its [maxAttempts] polls, and sleeps at most
    four times for each: three backoffs of the request and the second of
    the poll. *)
Theorem pollPrediction_never_exceeds_four_fetches_per_poll
    (predictionId : JsValue) (maxAttempts : Z) (w : World) :
  let w' := snd (_pollPrediction this env predictionId maxAttempts w) in
  Z.of_nat (fetch_count (trace w'))
  <= Z.of_nat (fetch_count (trace w)) + 4 * Z.max 0 maxAttempts /\
  Z.of_nat (length (sleeps (trace w')))
  <= Z.of_nat (length (sleeps (trace w))) + 4 * Z.max 0 maxAttempts.
Proof.
  intros w'. subst w'. unfold _pollPrediction.
  pose proof (poll_passes_budget (Z.to_nat maxAttempts) predictionId w) as H.
  cbn zeta in H. lia.
Qed.

(** Valid parameters pass [_validateParams]; a falsy one is thrown for. *)
Lemma validateParams_None_iff params required :
  _validateParams this params required = None
  <-> forall key, In key required -> truthy (param params key) = true.
Proof.
  pose proof (validateParams_throws_iff this params required) as Hiff.
  split.
  - intros Hnone key Hin. destruct (truthy (param params key)) eqn:Ht; [reflexivity|].
    exfalso. assert (Hs : is_Some (_validateParams this params required)).
    { apply Hiff. intros Hnil.
      assert (Hk : In key (missing_params params required))
        by (apply missing_params_spec; split; assumption).
      rewrite Hnil in Hk. destruct Hk. }
    rewrite Hnone in Hs. destruct Hs as [e He]. discriminate.
  - intros Hall. destruct (_validateParams this params required) as [e|] eqn:He;
      [|reflexivity].
    exfalso. assert (Hne : missing_params params required <> [])
      by (apply Hiff; eauto).
    destruct (missing_params params required) as [|k ks] eqn:Hm; [congruence|].
    assert (Hk : In k (missing_params params required)) by (rewrite Hm; left; reflexivity).
    apply missing_params_spec in Hk. destruct Hk as [Hin Hf].
    rewrite (Hall k Hin) in Hf. discriminate.
Qed.

Lemma validateParams_type params required e :
  _validateParams this params required = Some e ->
  type e = Some ERROR_TYPES.VALIDATION_ERROR.
Proof.
  unfold _validateParams.
  destruct (0 <? Z.of_nat (length (missing_params params required)));
    [|discriminate].
  intros [= <-]. reflexivity.
Qed.

(** X10. A client method whose required parameter is missing or falsy
    throws the VALIDATION_ERROR before it does anything else: no fetch,
    no sleep, no random draw.  [generateImage] of the Replicate client
    and [generateText] of the Anthropic client require [prompt] and
    [model]; [generateImage] of the Midjourney client requires [prompt]. *)
Theorem clients_validate_before_any_request
    (params : gmap string JsValue) (now : Z) (w : World) :
  (truthy (param params "prompt") = false \/ truthy (param params "model") = false ->
   exists e, type e = Some ERROR_TYPES.VALIDATION_ERROR /\
             replicate_generateImage this env params now w = (Throw (TError e), w) /\
             anthropic_generateText this env params now w = (Throw (TError e), w)) /\
  (truthy (param params "prompt") = false ->
   exists e, type e = Some ERROR_TYPES.VALIDATION_ERROR /\
             midjourney_generateImage this params w = (Throw (TError e), w)).
Proof.
  split.
  - intros Hfalsy. unfold replicate_generateImage, anthropic_generateText.
    destruct (_validateParams this params ["prompt"; "model"]) as [e|] eqn:He.
    + exists e. split; [eapply validateParams_type, He|]. split; reflexivity.
    + exfalso. pose proof (proj1 (validateParams_None_iff _ _) He) as Hall.
      destruct Hfalsy as [Hf|Hf];
        [rewrite (Hall "prompt") in Hf | rewrite (Hall "model") in Hf];
        try discriminate; cbn; auto.
  - intros Hfalsy. unfold midjourney_generateImage.
    destruct (_validateParams this params ["prompt"]) as [e|] eqn:He.
    + exists e. split; [eapply validateParams_type, He | reflexivity].
    + exfalso. pose proof (proj1 (validateParams_None_iff _ _) He) as Hall.
      rewrite (Hall "prompt") in Hfalsy by (cbn; auto). discriminate.
Qed.


(** X12. A 2xx answer whose body has no first [content] makes
    [generateText] of the Anthropic client throw the untyped [TypeError]
    of reading [text] of [undefined], after the one fetch, instead of
    returning a result or a typed error. *)
Theorem anthropic_generateText_needs_a_first_content
    (params : gmap string JsValue) (now : Z) (w : World)
    (r : Response) (response : JsValue) :
  truthy (param params "prompt") = true ->
  truthy (param params "model") = true ->
  fetch_script env (fetch_calls w) = Resolved r ->
  200 <= status r <= 299 ->
  body r = JsonParsed response ->
  no_first_content response ->
  anthropic_generateText this env params now w
  = (Throw (TError (property_of_nullish "undefined" "text")), after_fetch w).
Proof.
  intros Hprompt Hmodel Hf Hok Hbody Hnone. unfold anthropic_generateText.
  assert (Hval : _validateParams this params ["prompt"; "model"] = None).
  { apply validateParams_None_iff. intros key [<-|[<-|[]]]; assumption. }
  rewrite Hval. unfold bind at 1.
  rewrite (makeRequest_first_success _ default_retries w r response
             ltac:(unfold default_retries; lia) Hf Hok Hbody).
  assert (Hobj : exists fields, response = VObj fields).
  { destruct response; try (eexists; reflexivity);
      destruct Hnone as [H|[H|[H|[[x H]|[x H]]]]]; cbn in H; discriminate. }
  destruct Hobj as [fields ->]. unfold bind at 1, member at 1, ret at 1.
  destruct Hnone as [H|[H|[H|[[x H]|[x H]]]]]; rewrite H; reflexivity.
Qed.

End ClientFacts.

(** ** [_makeRequest] and the clients on the scenarios *)

Lemma makeRequest_stays_within_budget_witness :
  exists delays,
    trace (snd (_makeRequest test_client (always server_error) "/test" 3 world0))
    = trace world0 ++ attempts_trace (fetch_calls world0) delays /\
    Z.of_nat (length delays) <= 3 /\
    fetch_calls (snd (_makeRequest test_client (always server_error) "/test" 3 world0))
    = (fetch_calls world0 + S (length delays))%nat /\
    fetch_count (trace (snd (_makeRequest test_client (always server_error) "/test" 3
                               world0)))
    = (fetch_count (trace world0) + S (length delays))%nat /\
    sleeps (trace (snd (_makeRequest test_client (always server_error) "/test" 3 world0)))
    = sleeps (trace world0) ++ delays.
Proof.
  apply (makeRequest_stays_within_budget test_client (always server_error) "/test" 3
           world0).
  lia.
Defined.



Lemma unrecognised_failures_are_retried_then_thrown_as_is_witness :
  exists e delays w,
    unclassified_failure (fetch_script (always unparsable_success) (Z.to_nat 1)) e /\
    _makeRequest test_client (always unparsable_success) "/test" 1 world0
    = (Throw (TError e), w) /\
    trace w = attempts_trace 0 delays /\
    Z.of_nat (fetch_count (trace w)) = 1 + 1 /\
    Z.of_nat (length delays) = 1 /\
    (forall i d, delays !! i = Some d -> backoff_delay i d).
Proof.
  apply (unrecognised_failures_are_retried_then_thrown_as_is
           test_client (always unparsable_success) "/test" 1).
  - lia.
  - intros n Hn. exists syntax_error. left.
    split; [cbn; lia|]. split; [reflexivity|]. repeat split.
  - intros n. cbn. split; lra.
Defined.



Lemma pollPrediction_returns_only_succeeded_predictions_witness :
  get_prop (VObj [("id", VStr "p1"); ("status", VStr "succeeded");
                  ("output", VStr "https://img/1.png")]) "status"
  = VStr "succeeded" /\
  parsed_success_body (first_then 1 still_processing succeeded_prediction)
    (VObj [("id", VStr "p1"); ("status", VStr "succeeded");
           ("output", VStr "https://img/1.png")]).
Proof.
  apply (pollPrediction_returns_only_succeeded_predictions
           test_client (first_then 1 still_processing succeeded_prediction)
           (VStr "p1") 60 world0
           {| fetch_calls := 2; random_calls := 0;
              trace := [EvFetch 0; EvSleep (Ms 1000); EvFetch 1] |}).
  reflexivity.
Defined.

Lemma clients_validate_before_any_request_witness :
  exists e, type e = Some ERROR_TYPES.VALIDATION_ERROR /\
            replicate_generateImage test_client (always success)
              {[ "prompt" := VStr "a castle" ]} 0 world0
            = (Throw (TError e), world0) /\
            anthropic_generateText test_client (always success)
              {[ "prompt" := VStr "a castle" ]} 0 world0
            = (Throw (TError e), world0).
Proof.
  apply (proj1 (clients_validate_before_any_request test_client (always success)
                  {[ "prompt" := VStr "a castle" ]} 0 world0)).
  right. reflexivity.
Defined.


(** The output of the prediction is no array: [images] is the array of it. *)
Example replicate_generateImage_wraps_a_single_output :
  option_map (fun v => get_prop v "images")
    (match fst (replicate_generateImage test_client (always succeeded_prediction)
                  prompt_and_model 0 world0) with
     | Normal v => Some v
     | Throw _ => None
     end)
  = Some (VArr [VStr "https://img/1.png"]).
Proof. vm_compute. reflexivity. Qed.

Lemma anthropic_generateText_needs_a_first_content_witness :
  anthropic_generateText (AnthropicClient "key") (always empty_message)
    prompt_and_model 0 world0
  = (Throw (TError (property_of_nullish "undefined" "text")), after_fetch world0).
Proof.
  apply (anthropic_generateText_needs_a_first_content
           (AnthropicClient "key") (always empty_message) prompt_and_model 0 world0
           {| status := 200; statusText := "OK"; retry_after := None;
              body := JsonParsed (VObj [("content", VArr [])]) |}
           (VObj [("content", VArr [])])).
  - reflexivity.
  - reflexivity.
  - reflexivity.
  - cbn. lia.
  - reflexivity.
  - left. reflexivity.
Defined.

(** ** The queue: shape of the reachable states *)

Import QueueManager.
Import QueueTiming.

Lemma processQueue_busy now st :
  processing st = true -> _processQueue now st = (st, []).
Proof. intros H. unfold _processQueue. rewrite H. reflexivity. Qed.

Lemma finally_empty now st :
  queue st = [] ->
  finally now st
  = ({| queue := []; processing := false; rateLimits := rateLimits st;
        phase := Idle; next_promise := next_promise st |}, []).
Proof. intros H. unfold finally, _processQueue. cbn. rewrite H. reflexivity. Qed.

Lemma finally_shift now st item rest :
  queue st = item :: rest ->
  finally now st
  = (let timer := _checkRateLimit (provider (request item)) now (rateLimits st) in
     ({| queue := rest; processing := true; rateLimits := rateLimits st;
         phase := AwaitCheckRateLimit item timer;
         next_promise := next_promise st |},
      ObsShift item :: timer_obs timer)).
Proof. intros H. unfold finally, _processQueue. cbn. rewrite H. reflexivity. Qed.

Lemma enqueue_busy req now st :
  processing st = true ->
  enqueue req now st
  = (let item := {| request := req; promise := next_promise st; timestamp := now |} in
     ({| queue := queue st ++ [item]; processing := true;
         rateLimits := rateLimits st; phase := phase st;
         next_promise := S (next_promise st) |},
      [ObsPush item])).
Proof.
  intros H. unfold enqueue. rewrite processQueue_busy by exact H.
  cbn. rewrite H. reflexivity.
Qed.

Lemma enqueue_idle req now st :
  processing st = false -> queue st = [] ->
  enqueue req now st
  = (let item := {| request := req; promise := next_promise st; timestamp := now |} in
     let timer := _checkRateLimit (provider req) now (rateLimits st) in
     ({| queue := []; processing := true; rateLimits := rateLimits st;
         phase := AwaitCheckRateLimit item timer;
         next_promise := S (next_promise st) |},
      ObsPush item :: ObsShift item :: timer_obs timer)).
Proof.
  intros H Hq. unfold enqueue, _processQueue. cbn. rewrite H, Hq. reflexivity.
Qed.

Lemma consistent_init : consistent init.
Proof.
  constructor; cbn; try reflexivity; try discriminate; constructor.
Qed.

Lemma ids_app l1 l2 : ids (l1 ++ l2) = ids l1 ++ ids l2.
Proof. apply map_app. Qed.

(** A fresh promise comes after every promise allocated before. *)
Lemma sorted_snoc_fresh (l : list nat) (n : nat) :
  StronglySorted lt l -> Forall (fun p => (p < n)%nat) l ->
  StronglySorted lt (l ++ [n]).
Proof.
  intros Hs Hf. apply StronglySorted_app_2; [|exact Hs|repeat constructor].
  intros x1 x2 H1 H2. apply list_elem_of_singleton in H2 as ->.
  rewrite Forall_forall in Hf. apply Hf, H1.
Qed.

Lemma allocated_snoc (l : list nat) (n : nat) :
  Forall (fun p => (p < n)%nat) l -> Forall (fun p => (p < S n)%nat) (l ++ [n]).
Proof.
  intros Hf. apply Forall_app. split.
  - eapply Forall_impl; [exact Hf|]. cbn. lia.
  - repeat constructor.
Qed.

Lemma consistent_after_finally now st item st' o :
  consistent st -> phase st = AwaitExecute item ->
  finally now st = (st', o) ->
  consistent st'.
Proof.
  intros [Hp Hi Hr Hs Ha] Hph Hfin. unfold unsettled in Hs, Ha. rewrite Hph in Hs, Ha.
  cbn in Hs, Ha. apply StronglySorted_cons in Hs as [_ Hs].
  apply Forall_cons in Ha as [_ Ha].
  destruct (queue st) as [|head rest] eqn:Hq.
  - rewrite (finally_empty _ _ Hq) in Hfin. injection Hfin as <- <-.
    constructor; cbn; try reflexivity; try discriminate; constructor.
  - rewrite (finally_shift _ _ _ _ Hq) in Hfin. injection Hfin as <- <-.
    constructor; cbn; try reflexivity; try discriminate; assumption.
Qed.

Lemma rateLimits_irrelevant st limits :
  consistent st ->
  consistent {| queue := queue st; processing := processing st; rateLimits := limits;
                phase := phase st; next_promise := next_promise st |}.
Proof. intros [Hp Hi Hr Hs Ha]. constructor; assumption. Qed.

Lemma step_consistent l st st' o :
  consistent st -> step l st = Some (st', o) -> consistent st'.
Proof.
  intros Hc Hstep. pose proof Hc as [Hp Hi Hr Hs Ha].
  destruct l as [req now | now | outcome now | reason now]; cbn in Hstep.
  - (* enqueue *)
    assert (Henq : enqueue req now st = (st', o))
      by (destruct (phase st); congruence).
    clear Hstep. destruct (processing st) eqn:Hproc.
    + rewrite enqueue_busy in Henq by exact Hproc. injection Henq as <- <-.
      assert (Hun : unsettled
                {| queue := queue st ++ [{| request := req; promise := next_promise st;
                                            timestamp := now |}];
                   processing := true; rateLimits := rateLimits st;
                   phase := phase st; next_promise := S (next_promise st) |}
              = unsettled st ++ [{| request := req; promise := next_promise st;
                                    timestamp := now |}]).
      { unfold unsettled. cbn. destruct (phase st); reflexivity. }
      constructor; rewrite ?Hun, ?ids_app; cbn.
      * destruct (phase st); [discriminate|reflexivity..].
      * intros Hidle. rewrite Hidle in Hp. discriminate.
      * intros item timer Hph. destruct (Hr item timer Hph) as [rest ->].
        eexists. reflexivity.
      * apply sorted_snoc_fresh; assumption.
      * apply allocated_snoc; assumption.
    + assert (Hidle : phase st = Idle) by (destruct (phase st); congruence).
      rewrite enqueue_idle in Henq by auto. injection Henq as <- <-.
      constructor; cbn; try reflexivity; try discriminate;
        repeat constructor.
  - (* resume *)
    destruct (phase st) as [|item timer|item|item timer] eqn:Hph; try discriminate.
    + destruct (due timer now); [|discriminate]. injection Hstep as <- <-.
      unfold unsettled in *. rewrite Hph in *.
      constructor; cbn; try discriminate; assumption.
    + destruct (due timer now); [|discriminate]. injection Hstep as Hfin.
      destruct (Hr item timer eq_refl) as [rest Hq].
      rewrite (finally_shift _ _ _ _ Hq) in Hfin. injection Hfin as <- <-.
      unfold unsettled in *. rewrite Hph, Hq in *.
      constructor; cbn; try reflexivity; try discriminate; assumption.
  - (* execute settles *)
    destruct (phase st) as [|item timer|item|item timer] eqn:Hph; try discriminate.
    injection Hstep as Hafter. unfold after_execute in Hafter.
    destruct outcome as [result|error].
    + destruct (finally now _) as [st1 o1] eqn:Hfin. injection Hafter as <- <-.
      eapply consistent_after_finally; [| |exact Hfin]; [|exact Hph].
      apply rateLimits_irrelevant, Hc.
    + destruct (_isRateLimitError error).
      * injection Hafter as <- <-. unfold unsettled in *. rewrite Hph in *.
        constructor; cbn; try discriminate; try assumption.
        intros item' timer' Heq. injection Heq as <- _. eexists. reflexivity.
      * destruct (finally now st) as [st1 o1] eqn:Hfin. injection Hafter as <- <-.
        eapply consistent_after_finally; [exact Hc|exact Hph|exact Hfin].
  - (* execute rejects with a value that is no object *)
    destruct (phase st) as [|item timer|item|item timer] eqn:Hph; try discriminate.
    injection Hstep as Hafter. unfold after_primitive_rejection in Hafter.
    destruct (finally now st) as [st1 o1] eqn:Hfin. injection Hafter as <- <-.
    eapply consistent_after_finally; [exact Hc|exact Hph|exact Hfin].
Qed.

Lemma run_from_snoc start ls l :
  run_from start (ls ++ [l])
  = match run_from start ls with
    | Some (st, obs) =>
        match step l st with
        | Some (st', o) => Some (st', obs ++ o)
        | None => None
        end
    | None => None
    end.
Proof. unfold run_from. rewrite fold_left_app. reflexivity. Qed.

Lemma run_from_Some_app start ls1 ls2 mid :
  run_from start ls1 = Some mid ->
  run_from start (ls1 ++ ls2) = run_from mid ls2.
Proof. unfold run_from. intros H. rewrite fold_left_app, H. reflexivity. Qed.

Lemma run_from_consistent ls : forall st obs st' obs',
  consistent st -> run_from (st, obs) ls = Some (st', obs') -> consistent st'.
Proof.
  induction ls as [|l ls IH] using rev_ind; intros st obs st' obs' Hc Hrun.
  - injection Hrun as <- _. exact Hc.
  - rewrite run_from_snoc in Hrun.
    destruct (run_from (st, obs) ls) as [[st0 obs0]|] eqn:Hprev; [|discriminate].
    destruct (step l st0) as [[st1 o]|] eqn:Hs; [|discriminate].
    injection Hrun as <- _. eapply step_consistent; [|exact Hs].
    eapply IH; [exact Hc | exact Hprev].
Qed.

(** Induction over the runs of the manager. *)
Lemma run_ind (P : State -> list Obs -> Prop) :
  P init [] ->
  (forall st obs l st' o,
     consistent st -> P st obs -> step l st = Some (st', o) -> P st' (obs ++ o)) ->
  forall ls st obs, run ls = Some (st, obs) -> consistent st /\ P st obs.
Proof.
  intros Hinit Hstep ls. induction ls as [|l ls IH] using rev_ind; intros st obs Hrun.
  - injection Hrun as <- <-. split; [apply consistent_init | exact Hinit].
  - unfold run in Hrun. rewrite run_from_snoc in Hrun.
    destruct (run_from (init, []) ls) as [[st0 obs0]|] eqn:Hprev; [|discriminate].
    destruct (step l st0) as [[st1 o]|] eqn:Hs; [|discriminate].
    injection Hrun as <- <-. destruct (IH st0 obs0 Hprev) as [Hc HP].
    split; [eapply step_consistent; eauto|].
    eapply Hstep; eauto.
Qed.

Lemma run_consistent ls st obs : run ls = Some (st, obs) -> consistent st.
Proof.
  intros Hrun. apply (run_ind (fun _ _ => True) I (fun _ _ _ _ _ _ _ _ => I) ls st obs Hrun).
Qed.

(** [step] takes exactly the transitions listed. *)
Lemma finally_drained now limits st :
  exists st' o,
    finally now {| queue := queue st; processing := processing st; rateLimits := limits;
                   phase := phase st; next_promise := next_promise st |} = (st', o) /\
    drained now limits st st' o.
Proof.
  destruct (queue st) as [|next rest] eqn:Hq.
  - exists {| queue := []; processing := false; rateLimits := limits;
              phase := Idle; next_promise := next_promise st |}, [].
    split; [rewrite finally_empty by reflexivity; reflexivity | apply drained_idle, Hq].
  - exists {| queue := rest; processing := true; rateLimits := limits;
              phase := AwaitCheckRateLimit next
                         (_checkRateLimit (provider (request next)) now limits);
              next_promise := next_promise st |},
           (ObsShift next
              :: timer_obs (_checkRateLimit (provider (request next)) now limits)).
    split; [rewrite (finally_shift _ _ next rest) by reflexivity; reflexivity
          | apply drained_next, Hq].
Qed.

Lemma state_eta st :
  {| queue := queue st; processing := processing st; rateLimits := rateLimits st;
     phase := phase st; next_promise := next_promise st |} = st.
Proof. destruct st. reflexivity. Qed.

Lemma step_transition l st st' o :
  consistent st -> step l st = Some (st', o) -> transition st l st' o.
Proof.
  intros [Hp Hi Hr _ _] Hstep.
  destruct l as [req now | now | outcome now | reason now]; unfold step in Hstep.
  - assert (Henq : enqueue req now st = (st', o))
      by (destruct (phase st); congruence).
    clear Hstep. destruct (processing st) eqn:Hproc.
    + rewrite enqueue_busy in Henq by exact Hproc. injection Henq as <- <-.
      apply enqueue_behind, Hproc.
    + assert (Hidle : phase st = Idle) by (destruct (phase st); congruence).
      rewrite enqueue_idle in Henq by auto. injection Henq as <- <-.
      apply enqueue_and_take; auto.
  - destruct (phase st) as [|item timer|item|item timer] eqn:Hph; try discriminate;
      destruct (due timer now) eqn:Hdue; try discriminate; injection Hstep as Hfin.
    + subst. eapply start_execute; eauto.
    + destruct (Hr item timer eq_refl) as [rest Hq].
      rewrite (finally_shift _ _ _ _ Hq) in Hfin. injection Hfin as <- <-.
      eapply take_again; eauto.
  - destruct (phase st) as [|item timer|item|item timer] eqn:Hph; try discriminate.
    injection Hstep as Hafter. unfold after_execute in Hafter.
    destruct outcome as [result|error].
    + destruct (finally_drained now
                  (_updateRateLimit (provider (request item)) now (rateLimits st)) st)
        as (st1 & o1 & Hfin & Hdr).
      rewrite Hfin in Hafter. injection Hafter as <- <-.
      apply resolve; assumption.
    + destruct (_isRateLimitError error) eqn:Hrl.
      * injection Hafter as <- <-. apply requeue; assumption.
      * destruct (finally_drained now (rateLimits st) st) as (st1 & o1 & Hfin & Hdr).
        rewrite state_eta in Hfin. rewrite Hfin in Hafter. injection Hafter as <- <-.
        apply reject; assumption.
  - destruct (phase st) as [|item timer|item|item timer] eqn:Hph; try discriminate.
    injection Hstep as Hafter. unfold after_primitive_rejection in Hafter.
    destruct (finally_drained now (rateLimits st) st) as (st1 & o1 & Hfin & Hdr).
    rewrite state_eta in Hfin. rewrite Hfin in Hafter. injection Hafter as <- <-.
    apply reject_or_throw; assumption.
Qed.

(** ** The queue: order of execution *)

Lemma executed_app o1 o2 : executed (o1 ++ o2) = executed o1 ++ executed o2.
Proof. apply omap_app. Qed.

Lemma executed_timer_obs t : executed (timer_obs t) = [].
Proof. destruct t; reflexivity. Qed.

Lemma executed_caught item reason o :
  executed (caught_primitive item reason :: o) = executed o.
Proof. destruct reason; reflexivity. Qed.


Ltac invert_transition H :=
  inversion H; subst; clear H;
  try match goal with
      | Hd : drained _ _ _ _ _ |- _ => inversion Hd; subst; clear Hd
      end.

(** The promise next in line never goes back. *)
Lemma frontier_mono l st st' o :
  consistent st -> transition st l st' o -> (frontier st <= frontier st')%nat.
Proof.
  intros Hc Htr. pose proof Hc as [Hp Hi Hr Hs Ha].
  unfold frontier. unfold unsettled in *.
  invert_transition Htr; cbn;
    repeat match goal with
           | H : phase st = _ |- _ => rewrite H in *
           | H : queue st = _ |- _ => rewrite H in *
           end; cbn in *; try lia.
  - (* enqueue behind *)
    destruct (phase st) as [|item timer|item|item timer] eqn:Hph; try congruence; cbn;
      try lia.
    destruct (Hr item timer eq_refl) as [rest ->]. cbn. lia.
  - apply Forall_cons in Ha as [Ha _]. lia.
  - apply StronglySorted_cons in Hs as [Hs _]. apply Forall_cons in Hs as [Hs _]. lia.
  - apply Forall_cons in Ha as [Ha _]. lia.
  - apply StronglySorted_cons in Hs as [Hs _]. apply Forall_cons in Hs as [Hs _]. lia.
  - apply Forall_cons in Ha as [Ha _]. lia.
  - apply StronglySorted_cons in Hs as [Hs _]. apply Forall_cons in Hs as [Hs _]. lia.
Qed.

(** Only the entry next in line is ever executed. *)
Lemma executed_is_frontier l st st' o :
  consistent st -> transition st l st' o ->
  executed o = [] \/ executed o = [frontier st].
Proof.
  intros Hc Htr. unfold frontier, unsettled.
  invert_transition Htr; rewrite ?executed_caught; cbn; rewrite ?executed_timer_obs; auto.
  right. match goal with H : phase st = _ |- _ => rewrite H end. reflexivity.
Qed.

Lemma executed_in_order ls st obs :
  run ls = Some (st, obs) ->
  StronglySorted le (executed obs) /\
  Forall (fun p => (p <= frontier st)%nat) (executed obs).
Proof.
  intros Hrun.
  apply (run_ind (fun st obs =>
           StronglySorted le (executed obs) /\
           Forall (fun p => (p <= frontier st)%nat) (executed obs))) in Hrun;
    [apply Hrun | split; constructor |].
  clear. intros st obs l st' o Hc [Hs Hb] Hstep.
  apply step_transition in Hstep; [|exact Hc].
  pose proof (frontier_mono _ _ _ _ Hc Hstep) as Hmono.
  assert (Hb' : Forall (fun p => (p <= frontier st')%nat) (executed obs)).
  { eapply Forall_impl; [exact Hb|]. cbn. lia. }
  rewrite executed_app.
  destruct (executed_is_frontier _ _ _ _ Hc Hstep) as [-> | ->].
  - rewrite app_nil_r. auto.
  - split.
    + apply StronglySorted_app_2; [|exact Hs|repeat constructor].
      intros x1 x2 H1 H2. apply list_elem_of_singleton in H2 as ->.
      rewrite Forall_forall in Hb. apply Hb, H1.
    + apply Forall_app. split; [exact Hb'|]. repeat constructor. exact Hmono.
Qed.

(** An entry that waits for its retry is the next one executed. *)
Lemma awaits_retry_step l st st' o item :
  awaits_retry st item -> transition st l st' o ->
  (executed o = [] /\ awaits_retry st' item) \/ executed o = [promise item].
Proof.
  intros Hw Htr.
  invert_transition Htr; rewrite ?executed_caught; cbn; rewrite ?executed_timer_obs;
    destruct Hw as [[t Hw]|[t Hw]]; try congruence.
  - left. split; [reflexivity|]. left. eauto.
  - left. split; [reflexivity|]. right. eauto.
  - right. congruence.
  - left. split; [reflexivity|]. right.
    assert (item0 = item) as -> by congruence. eauto.
Qed.

(** The only transition that puts an entry back is the requeue, and the
    entry then waits for its retry. *)
Lemma unshift_in_step l st st' o before item after :
  transition st l st' o -> o = before ++ ObsUnshift item :: after ->
  executed after = [] /\ awaits_retry st' item.
Proof.
  intros Htr Ho.
  destruct Htr;
    try match goal with
        | Hd : drained _ _ _ _ _ |- _ => destruct Hd
        end;
    repeat match goal with
           | H : context [timer_obs ?t] |- _ => destruct t; cbn in H
           end;
    try match goal with
        | H : context [caught_primitive _ ?r] |- _ =>
            destruct r; cbn [caught_primitive] in H
        end;
    destruct before as [|? [|? [|? [|? before]]]]; try discriminate;
    injection Ho as <- <-; (split; [reflexivity|]); left; eauto.
Qed.

Lemma split_snoc {A} (obs o o1 o2 : list A) (x : A) :
  obs ++ o = o1 ++ x :: o2 ->
  (exists mid, obs = o1 ++ x :: mid /\ o2 = mid ++ o) \/
  (exists before, o = before ++ x :: o2).
Proof.
  intros H. apply app_eq_app in H as [l [[-> H]|[-> ->]]].
  - destruct l as [|y l]; cbn in H.
    + right. exists []. symmetry. exact H.
    + injection H as -> ->. left. eauto.
  - right. eauto.
Qed.

Lemma requeued_entry_runs_next ls st obs :
  run ls = Some (st, obs) ->
  forall o1 item o2, obs = o1 ++ ObsUnshift item :: o2 ->
    match executed o2 with
    | [] => awaits_retry st item
    | p :: _ => p = promise item
    end.
Proof.
  intros Hrun.
  apply (run_ind (fun st obs =>
           forall o1 item o2, obs = o1 ++ ObsUnshift item :: o2 ->
             match executed o2 with
             | [] => awaits_retry st item
             | p :: _ => p = promise item
             end)) in Hrun; [apply Hrun | |].
  - intros [|? ?] ? ? ?; discriminate.
  - clear. intros st obs l st' o Hc IH Hstep o1 item o2 Hsplit.
    apply step_transition in Hstep; [|exact Hc].
    apply split_snoc in Hsplit as [(mid & -> & ->)|(before & ->)].
    + specialize (IH o1 item mid eq_refl). rewrite executed_app.
      destruct (executed mid) as [|p ps]; [|exact IH]. cbn.
      destruct (awaits_retry_step _ _ _ _ _ IH Hstep) as [[-> Hw]| ->];
        [exact Hw | reflexivity].
    + destruct (unshift_in_step _ _ _ _ _ _ _ Hstep eq_refl) as [-> Hw]. exact Hw.
Qed.

(** A rate-limit error never rejects. *)
Lemma rejections_are_not_rate_limits ls st obs :
  run ls = Some (st, obs) ->
  forall item error, In (ObsReject item error) obs -> _isRateLimitError error = false.
Proof.
  intros Hrun.
  apply (run_ind (fun st obs =>
           forall item error, In (ObsReject item error) obs ->
                              _isRateLimitError error = false)) in Hrun;
    [apply Hrun | intros ? ? [] |].
  clear. intros st obs l st' o Hc IH Hstep item error Hin.
  apply step_transition in Hstep; [|exact Hc].
  apply in_app_or in Hin as [Hin|Hin]; [eauto|].
  invert_transition Hstep;
    repeat match goal with
           | H : context [timer_obs ?t] |- _ => destruct t; cbn in H
           end;
    try match goal with
        | H : context [caught_primitive _ ?r] |- _ =>
            destruct r; cbn [caught_primitive] in H
        end;
    cbn in Hin; intuition (try discriminate; try congruence).
Qed.

(** Once its wait is over, the entry put back is taken again, and once the
    rate-limit check is over it is executed again. *)
Lemma requeued_entry_can_run st item timer now :
  consistent st ->
  phase st = AwaitWaitForRateLimit item timer ->
  due timer now = true ->
  exists st1 timer1,
    step (Resume now) st = Some (st1, ObsShift item :: timer_obs timer1) /\
    phase st1 = AwaitCheckRateLimit item timer1 /\
    forall now1, due timer1 now1 = true ->
      exists st2, step (Resume now1) st1 = Some (st2, [ObsExecute item]) /\
                  phase st2 = AwaitExecute item.
Proof.
  intros [_ _ Hr _ _] Hph Hdue. destruct (Hr item timer Hph) as [rest Hq].
  unfold step. rewrite Hph, Hdue, (finally_shift _ _ _ _ Hq).
  eexists _, _. split; [reflexivity|]. split; [reflexivity|].
  intros now1 Hdue1. cbn. rewrite Hdue1. eexists. split; reflexivity.
Qed.

Lemma submitted_app o1 o2 : submitted (o1 ++ o2) = submitted o1 ++ submitted o2.
Proof. apply omap_app. Qed.

Lemma submitted_cons x o :
  submitted (x :: o)
  = match x with ObsPush item => [promise item] | _ => [] end ++ submitted o.
Proof. destruct x; reflexivity. Qed.

Lemma submitted_timer_obs t : submitted (timer_obs t) = [].
Proof. destruct t; reflexivity. Qed.

Lemma submitted_caught item reason o :
  submitted (caught_primitive item reason :: o) = submitted o.
Proof. destruct reason; reflexivity. Qed.

(** Promises number the entries in the order of submission. *)
Lemma submitted_in_order ls st obs :
  run ls = Some (st, obs) -> submitted obs = seq 0 (next_promise st).
Proof.
  intros Hrun.
  apply (run_ind (fun st obs => submitted obs = seq 0 (next_promise st))) in Hrun;
    [apply Hrun | reflexivity |].
  clear. intros st obs l st' o Hc IH Hstep.
  apply step_transition in Hstep; [|exact Hc].
  rewrite submitted_app, IH.
  invert_transition Hstep;
    rewrite ?submitted_caught, ?submitted_cons, ?submitted_timer_obs;
    cbn [next_promise promise app]; change (submitted []) with (@nil nat);
    rewrite ?app_nil_r; try rewrite seq_S; reflexivity.
Qed.

(** ** The queue: what becomes of every entry *)

Lemma settled_app o1 o2 : settled (o1 ++ o2) = settled o1 ++ settled o2.
Proof. apply omap_app. Qed.

Lemma settled_timer_obs t : settled (timer_obs t) = [].
Proof. destruct t; reflexivity. Qed.

Lemma settled_cons x o :
  settled (x :: o)
  = match x with
    | ObsResolve item _ | ObsReject item _ | ObsRejectWith item _ => [promise item]
    | _ => []
    end ++ settled o.
Proof. destruct x; reflexivity. Qed.

Lemma departed_app o1 o2 : departed (o1 ++ o2) = departed o1 ++ departed o2.
Proof. apply omap_app. Qed.

Lemma departed_timer_obs t : departed (timer_obs t) = [].
Proof. destruct t; reflexivity. Qed.

Lemma departed_cons x o :
  departed (x :: o)
  = match x with
    | ObsResolve item _ | ObsReject item _ | ObsRejectWith item _
    | ObsThrow item _ => [promise item]
    | _ => []
    end ++ departed o.
Proof. destruct x; reflexivity. Qed.

Lemma departed_caught item reason o :
  departed (caught_primitive item reason :: o) = promise item :: departed o.
Proof. destruct reason; reflexivity. Qed.

Lemma ended_app o1 o2 : ended (o1 ++ o2) = ended o1 ++ ended o2.
Proof. apply omap_app. Qed.

Lemma ended_timer_obs t : ended (timer_obs t) = [].
Proof. destruct t; reflexivity. Qed.

Lemma ended_cons x o :
  ended (x :: o)
  = match x with
    | ObsResolve item _ | ObsReject item _ | ObsRejectWith item _
    | ObsThrow item _ | ObsUnshift item => [promise item]
    | _ => []
    end ++ ended o.
Proof. destruct x; reflexivity. Qed.

Lemma ended_caught item reason o :
  ended (caught_primitive item reason :: o) = promise item :: ended o.
Proof. destruct reason; reflexivity. Qed.

Lemma executed_cons x o :
  executed (x :: o)
  = match x with ObsExecute item => [promise item] | _ => [] end ++ executed o.
Proof. destruct x; reflexivity. Qed.

(** The promises handed out are those of the entries that left, then
    those of the entries the manager holds. *)
Lemma submitted_departed_unsettled ls st obs :
  run ls = Some (st, obs) ->
  submitted obs = departed obs ++ ids (unsettled st).
Proof.
  intros Hrun.
  apply (run_ind (fun st obs => submitted obs = departed obs ++ ids (unsettled st)))
    in Hrun; [apply Hrun | reflexivity |].
  clear. intros st obs l st' o Hc IH Hstep.
  apply step_transition in Hstep; [|exact Hc].
  rewrite submitted_app, departed_app, IH.
  pose proof Hc as [Hp Hi Hr _ _].
  unfold unsettled in *.
  invert_transition Hstep;
    rewrite ?submitted_caught, ?departed_caught,
      ?submitted_cons, ?departed_cons, ?submitted_timer_obs, ?departed_timer_obs;
    change (submitted []) with (@nil nat); change (departed []) with (@nil nat);
    cbn [queue phase promise];
    repeat match goal with
           | H : phase st = _ |- _ => rewrite H in *
           | H : queue st = _ |- _ => rewrite H in *
           end;
    unfold ids in *; cbn [map app]; rewrite ?app_nil_r, <- ?app_assoc; cbn [app];
    try reflexivity.
  destruct (phase st) as [|item timer|item|item timer] eqn:Hph; try discriminate;
    cbn [map app] in *; rewrite ?map_app; cbn [map app promise];
    rewrite <- ?app_assoc; reflexivity.
Qed.

Lemma seq_prefix (n : nat) (a b : list nat) : seq 0 n = a ++ b -> a = seq 0 (length a).
Proof.
  intros Heq.
  assert (Hlen : (length a <= n)%nat).
  { apply (f_equal (@length nat)) in Heq. rewrite length_seq, length_app in Heq. lia. }
  assert (Htake : a = take (length a) (seq 0 n))
    by (rewrite Heq, take_app_length; reflexivity).
  rewrite take_seq, Nat.min_l in Htake by exact Hlen. exact Htake.
Qed.

Lemma seq_sorted n : forall a, StronglySorted lt (seq a n).
Proof.
  induction n as [|n IH]; intros a; cbn; constructor; [apply IH|].
  apply Forall_forall. intros x Hx. apply elem_of_seq in Hx. lia.
Qed.

Lemma sorted_sublist (l1 l2 : list nat) :
  sublist l1 l2 -> StronglySorted lt l2 -> StronglySorted lt l1.
Proof.
  induction 1 as [|x l1 l2 Hsub IH|x l1 l2 Hsub IH]; intros Hs.
  - constructor.
  - apply StronglySorted_inv in Hs as [Hs Hx]. constructor; [apply IH, Hs|].
    rewrite Forall_forall in Hx |- *. intros y Hy. apply Hx.
    eapply elem_of_sublist; eassumption.
  - apply StronglySorted_inv in Hs as [Hs _]. apply IH, Hs.
Qed.

(** The promises settled are among those of the entries that left, in
    the same order; those are the settled and the dropped ones. *)
Lemma settled_among_departed obs :
  sublist (settled obs) (departed obs) /\
  departed obs ≡ₚ settled obs ++ dropped obs /\
  (dropped obs = [] -> settled obs = departed obs).
Proof.
  induction obs as [|x obs (Hsub & Hperm & Hnone)]; [repeat split; constructor|].
  destruct x; cbn [settled departed dropped omap]; cbn;
    fold (settled obs); fold (departed obs); fold (dropped obs);
    try (split; [exact Hsub | split; [exact Hperm | exact Hnone]]).
  - split; [apply sublist_skip, Hsub|]. split; [apply perm_skip, Hperm|].
    intros H. rewrite (Hnone H). reflexivity.
  - split; [apply sublist_skip, Hsub|]. split; [apply perm_skip, Hperm|].
    intros H. rewrite (Hnone H). reflexivity.
  - split; [apply sublist_skip, Hsub|]. split; [apply perm_skip, Hperm|].
    intros H. rewrite (Hnone H). reflexivity.
  - split; [apply sublist_cons, Hsub|].
    split; [rewrite <- Permutation_middle; apply perm_skip, Hperm | discriminate].
Qed.

(** The executions begun are those that have ended, then the one the
    manager awaits. *)
Lemma executed_ended_in_flight ls st obs :
  run ls = Some (st, obs) ->
  executed obs = ended obs ++ in_flight st.
Proof.
  intros Hrun.
  apply (run_ind (fun st obs => executed obs = ended obs ++ in_flight st))
    in Hrun; [apply Hrun | reflexivity |].
  clear. intros st obs l st' o Hc IH Hstep.
  apply step_transition in Hstep; [|exact Hc].
  rewrite executed_app, ended_app, IH.
  pose proof Hc as [Hp Hi Hr _ _].
  unfold in_flight in *.
  invert_transition Hstep;
    rewrite ?executed_caught, ?ended_caught,
      ?executed_cons, ?ended_cons, ?executed_timer_obs, ?ended_timer_obs;
    change (executed []) with (@nil nat); change (ended []) with (@nil nat);
    cbn [queue phase promise];
    repeat match goal with
           | H : phase st = _ |- _ => rewrite H in *
           end;
    cbn [app]; rewrite ?app_nil_r, <- ?app_assoc; cbn [app]; try reflexivity.
Qed.

(** ** The queue: every entry gets its turn *)

Ltac solve_sorted := repeat first [progress cbn [clock map] | lia | constructor].

Lemma departed_in_ended obs p : In p (departed obs) -> In p (ended obs).
Proof.
  induction obs as [|x obs IH]; [intros []|].
  rewrite departed_cons, ended_cons. intros Hin.
  apply in_app_or in Hin as [Hin|Hin]; apply in_or_app.
  - left. destruct x; cbn in Hin |- *; tauto.
  - right. apply IH, Hin.
Qed.

Lemma settled_none_departed o : departed o = [] -> settled o = [].
Proof.
  intros Hdep. destruct (settled_among_departed o) as (Hsub & _).
  rewrite Hdep in Hsub. apply sublist_nil_r in Hsub. exact Hsub.
Qed.

Lemma frontier_allocated st : consistent st -> (frontier st <= next_promise st)%nat.
Proof.
  intros [_ _ _ _ Ha]. unfold frontier.
  destruct (unsettled st) as [|item rest]; [lia|].
  cbn in Ha. apply Forall_cons in Ha as [Ha _]. lia.
Qed.

(** No entry is skipped: every entry older than the one next in line has
    been executed. *)
Lemma before_frontier_executed ls st obs :
  run ls = Some (st, obs) ->
  forall p, (p < frontier st)%nat -> In p (executed obs).
Proof.
  intros Hrun p Hp.
  pose proof (run_consistent _ _ _ Hrun) as Hc.
  pose proof (frontier_allocated st Hc) as Hle.
  pose proof (submitted_in_order _ _ _ Hrun) as Hsub.
  pose proof (submitted_departed_unsettled _ _ _ Hrun) as Hcons.
  assert (Hin : In p (submitted obs)) by (rewrite Hsub; apply in_seq; lia).
  rewrite Hcons in Hin. apply in_app_or in Hin as [Hin|Hin].
  - rewrite (executed_ended_in_flight _ _ _ Hrun). apply in_or_app. left.
    apply departed_in_ended, Hin.
  - exfalso. destruct Hc as [_ _ _ Hs _]. unfold frontier in Hp.
    destruct (unsettled st) as [|item rest]; [destruct Hin|].
    cbn in Hin, Hs. apply StronglySorted_inv in Hs as [_ Hall].
    destruct Hin as [<-|Hin]; [lia|].
    rewrite Forall_forall in Hall. apply list_elem_of_In in Hin.
    specialize (Hall p Hin). lia.
Qed.

(** A call of [enqueue] puts the new entry behind all the others. *)
Lemma enqueue_at_the_tail st req now :
  consistent st ->
  exists st' o,
    step (CallEnqueue req now) st = Some (st', o) /\
    submitted o = [next_promise st] /\
    unsettled st' = unsettled st ++ [mkItem req (next_promise st) now] /\
    executed o = [] /\ departed o = [].
Proof.
  intros [Hp Hi _ _ _].
  assert (Hstep : step (CallEnqueue req now) st = Some (enqueue req now st))
    by (unfold step; destruct (phase st); reflexivity).
  rewrite Hstep. destruct (processing st) eqn:Hproc.
  - rewrite enqueue_busy by exact Hproc. eexists _, _. split; [reflexivity|].
    split; [reflexivity|]. split; [|split; reflexivity].
    unfold unsettled. cbn. destruct (phase st); reflexivity.
  - assert (Hidle : phase st = Idle) by (destruct (phase st); congruence).
    rewrite enqueue_idle by auto. eexists _, _. split; [reflexivity|].
    rewrite !submitted_cons, !executed_cons, !departed_cons,
      submitted_timer_obs, executed_timer_obs, departed_timer_obs.
    split; [reflexivity|]. split; [|split; reflexivity].
    unfold unsettled. rewrite Hidle, (Hi Hidle). reflexivity.
Qed.

Lemma due_at_expiry timer T : exists t, T <= t /\ due timer t = true.
Proof.
  destruct timer as [tm|]; cbn.
  - exists (Z.max T (set_at tm + waitTime tm)). split; [lia|]. apply Z.leb_le. lia.
  - exists T. split; [lia | reflexivity].
Qed.

(** The head entry is executed by the resumptions of the awaits alone:
    no other event is needed, and none can get ahead of it. *)
Lemma head_is_executed st obs item rest T :
  consistent st ->
  unsettled st = item :: rest ->
  exists ls' st' o T',
    Forall is_resume ls' /\ from_time T ls' /\ T <= T' /\
    Forall (fun l => clock l <= T') ls' /\
    run_from (st, obs) ls' = Some (st', obs ++ o) /\
    phase st' = AwaitExecute item /\
    queue st' = rest /\
    in_flight st ++ executed o = [promise item] /\
    departed o = [] /\ submitted o = [].
Proof.
  intros [Hp Hi Hr _ _] Hun. unfold unsettled in Hun. unfold in_flight, from_time.
  destruct (phase st) as [|item' timer|item'|item' timer] eqn:Hph.
  - rewrite (Hi eq_refl) in Hun. discriminate.
  - injection Hun as -> Hq.
    destruct (due_at_expiry timer T) as (t & Ht & Hdue).
    exists [Resume t],
      {| queue := queue st; processing := processing st; rateLimits := rateLimits st;
         phase := AwaitExecute item; next_promise := next_promise st |},
      [ObsExecute item], t.
    split; [repeat constructor|].
    split; [split; unfold clock_runs_forward; cbn; solve_sorted|].
    split; [exact Ht|]. split; [cbn; solve_sorted|].
    split; [unfold run_from; cbn [fold_left]; unfold step; rewrite Hph, Hdue;
            reflexivity|].
    repeat split; assumption.
  - injection Hun as -> Hq.
    exists [], st, [], T.
    split; [constructor|].
    split; [split; unfold clock_runs_forward; cbn; constructor|].
    split; [lia|]. split; [constructor|].
    split; [cbn; rewrite app_nil_r; reflexivity|].
    repeat split; assumption.
  - destruct (Hr item' timer eq_refl) as [rest' Hq]. rewrite Hq in Hun.
    injection Hun as -> ->.
    destruct (due_at_expiry timer T) as (t1 & Ht1 & Hdue1).
    destruct (due_at_expiry
                (_checkRateLimit (provider (request item)) t1 (rateLimits st)) t1)
      as (t2 & Ht2 & Hdue2).
    exists [Resume t1; Resume t2],
      {| queue := rest; processing := true; rateLimits := rateLimits st;
         phase := AwaitExecute item; next_promise := next_promise st |},
      (ObsShift item
         :: timer_obs (_checkRateLimit (provider (request item)) t1 (rateLimits st))
         ++ [ObsExecute item]), t2.
    split; [repeat constructor|].
    split; [split; unfold clock_runs_forward; cbn; solve_sorted|].
    split; [lia|]. split; [cbn; solve_sorted|].
    split.
    { unfold run_from. cbn [fold_left]. unfold step at 1. rewrite Hph, Hdue1.
      rewrite (finally_shift _ _ item rest Hq). cbn zeta.
      unfold step. cbn [phase]. rewrite Hdue2. cbn [queue processing rateLimits
        next_promise]. rewrite <- app_assoc. reflexivity. }
    rewrite executed_cons, departed_cons, submitted_cons, executed_app, departed_app,
      submitted_app, executed_timer_obs, departed_timer_obs, submitted_timer_obs.
    repeat split; reflexivity.
Qed.

Lemma drained_unsettled now limits st st' o :
  drained now limits st st' o ->
  unsettled st' = queue st /\ in_flight st' = [] /\
  executed o = [] /\ departed o = [] /\ submitted o = [].
Proof.
  intros [Hq | next rest Hq]; unfold unsettled, in_flight; cbn [phase queue].
  - rewrite Hq. repeat split; reflexivity.
  - rewrite Hq, executed_cons, departed_cons, submitted_cons, executed_timer_obs,
      departed_timer_obs, submitted_timer_obs. repeat split; reflexivity.
Qed.

(** An execution can always come to its end, and a result or an error
    that is no RATE_LIMIT error makes the entry leave, the others staying
    in their order. *)
Lemma execution_settles st item outcome now :
  consistent st ->
  phase st = AwaitExecute item ->
  match outcome with inr error => _isRateLimitError error = false | inl _ => True end ->
  exists st' o,
    step (ExecuteSettles outcome now) st
    = Some (st', match outcome with
                 | inl result => ObsResolve item result
                 | inr error => ObsReject item error
                 end :: o) /\
    consistent st' /\
    unsettled st' = queue st /\ in_flight st' = [] /\
    executed o = [] /\ departed o = [] /\ submitted o = [].
Proof.
  intros Hc Hph Hout.
  assert (Hsome : exists st' o,
             step (ExecuteSettles outcome now) st
             = Some (st', match outcome with
                          | inl result => ObsResolve item result
                          | inr error => ObsReject item error
                          end :: o) /\
             exists limits, drained now limits st st' o).
  { unfold step. rewrite Hph. unfold after_execute.
    destruct outcome as [result|error].
    - destruct (finally_drained now
                  (_updateRateLimit (provider (request item)) now (rateLimits st)) st)
        as (st1 & o1 & Hfin & Hd).
      rewrite Hfin. eauto.
    - rewrite Hout.
      destruct (finally_drained now (rateLimits st) st) as (st1 & o1 & Hfin & Hd).
      rewrite state_eta in Hfin. rewrite Hfin. eauto. }
  destruct Hsome as (st' & o & Hstep & limits & Hd).
  exists st', o. split; [exact Hstep|].
  split; [eapply step_consistent; eassumption|].
  eapply drained_unsettled, Hd.
Qed.

(** When every execution resolves, the entries the manager holds are
    executed and fulfilled one after the other, in the order of
    submission, and the manager goes idle. *)
Lemma queue_drains n : forall st obs T,
  consistent st ->
  length (unsettled st) = n ->
  exists ls' st' o,
    from_time T ls' /\
    run_from (st, obs) ls' = Some (st', obs ++ o) /\
    phase st' = Idle /\
    in_flight st ++ executed o = ids (unsettled st) /\
    departed o = ids (unsettled st) /\
    settled o = ids (unsettled st) /\
    submitted o = [].
Proof.
  induction n as [|n IH]; intros st obs T Hc Hlen.
  - apply nil_length_inv in Hlen. exists [], st, [].
    pose proof Hc as [_ _ Hr _ _].
    assert (Hidle : phase st = Idle).
    { unfold unsettled in Hlen.
      destruct (phase st) as [|item timer|item|item timer] eqn:Hph; try discriminate;
        [reflexivity|].
      destruct (Hr item timer eq_refl) as [rest Hq]. rewrite Hq in Hlen. discriminate. }
    rewrite Hlen. unfold in_flight. rewrite Hidle.
    split; [split; constructor|].
    split; [cbn; rewrite app_nil_r; reflexivity|]. repeat split; reflexivity.
  - destruct (unsettled st) as [|item rest] eqn:Hun; [discriminate|].
    cbn in Hlen. injection Hlen as Hlen.
    destruct (head_is_executed st obs item rest T Hc Hun)
      as (ls1 & st1 & o1 & T1 & _ & [Hfw1 Hlo1] & HT1 & Hhi1 & Hrun1 & Hph1 & Hq1
          & Hex1 & Hdep1 & Hsub1).
    assert (Hc1 : consistent st1) by (eapply run_from_consistent; eassumption).
    destruct (execution_settles st1 item (inl VNull) T1 Hc1 Hph1 I)
      as (st2 & o2 & Hstep2 & Hc2 & Hun2 & Hfl2 & Hex2 & Hdep2 & Hsub2).
    rewrite Hq1 in Hun2.
    destruct (IH st2 ((obs ++ o1) ++ ObsResolve item VNull :: o2) T1 Hc2
                ltac:(rewrite Hun2; exact Hlen))
      as (ls3 & st3 & o3 & [Hfw3 Hlo3] & Hrun3 & Hph3 & Hex3 & Hdep3 & Hset3 & Hsub3).
    rewrite Hun2, Hfl2 in *.
    exists (ls1 ++ ExecuteSettles (inl VNull) T1 :: ls3), st3,
      (o1 ++ ObsResolve item VNull :: o2 ++ o3).
    split.
    { split.
      - unfold clock_runs_forward in *. rewrite map_app. cbn [map clock].
        apply StronglySorted_app_2; [|exact Hfw1|].
        + intros x1 x2 H1 H2.
          apply list_elem_of_fmap in H1 as (l1 & -> & H1).
          rewrite Forall_forall in Hhi1. specialize (Hhi1 l1 H1).
          apply elem_of_cons in H2 as [->|H2]; [exact Hhi1|].
          apply list_elem_of_fmap in H2 as (l2 & -> & H2).
          rewrite Forall_forall in Hlo3. specialize (Hlo3 l2 H2). lia.
        + constructor; [exact Hfw3|].
          apply Forall_forall. intros x Hx.
          apply list_elem_of_fmap in Hx as (l2 & -> & H2).
          rewrite Forall_forall in Hlo3. apply (Hlo3 l2 H2).
      - apply Forall_app. split; [exact Hlo1|]. constructor; [cbn; lia|].
        eapply Forall_impl; [exact Hlo3|]. cbn. intros; lia. }
    split.
    { rewrite (run_from_Some_app _ _ _ _ Hrun1). unfold run_from. cbn [fold_left].
      rewrite Hstep2. fold (run_from (st2, (obs ++ o1) ++ ObsResolve item VNull :: o2) ls3).
      rewrite Hrun3. rewrite <- !app_assoc. reflexivity. }
    split; [exact Hph3|].
    rewrite !executed_app, !departed_app, !settled_app, !submitted_app,
      executed_cons, departed_cons, settled_cons, submitted_cons,
      !executed_app, !departed_app, !settled_app, !submitted_app,
      Hex2, Hdep2, Hsub2, Hdep1, Hsub1, Hdep3, Hset3, Hsub3.
    cbn [app] in Hex3. rewrite Hex3.
    assert (Hset1 : settled o1 = []) by (apply settled_none_departed, Hdep1).
    assert (Hset2 : settled o2 = []) by (apply settled_none_departed, Hdep2).
    rewrite Hset1, Hset2. cbn [app ids map].
    split; [rewrite app_assoc, Hex1; reflexivity|]. repeat split; reflexivity.
Qed.

(** An execution that throws a RATE_LIMIT error is followed, by the
    resumptions of the awaits alone, by the execution of the same entry. *)
Lemma rate_limited_entry_is_executed_again ls st obs item error now :
  run ls = Some (st, obs) ->
  phase st = AwaitExecute item ->
  _isRateLimitError error = true ->
  exists ls' st' o,
    Forall is_resume ls' /\ from_time now ls' /\
    run (ls ++ ExecuteSettles (inr error) now :: ls')
    = Some (st', obs ++ ObsUnshift item :: o) /\
    phase st' = AwaitExecute item /\ queue st' = queue st /\
    executed o = [promise item] /\ departed o = [].
Proof.
  intros Hrun Hph Hrl.
  pose proof (run_consistent _ _ _ Hrun) as Hc.
  set (timer := _waitForRateLimit (provider (request item)) now (rateLimits st)).
  set (st1 := {| queue := item :: queue st; processing := processing st;
                 rateLimits := rateLimits st;
                 phase := AwaitWaitForRateLimit item timer;
                 next_promise := next_promise st |}).
  assert (Hstep : step (ExecuteSettles (inr error) now) st
                  = Some (st1, ObsUnshift item :: timer_obs timer))
    by (unfold step, after_execute; rewrite Hph, Hrl; reflexivity).
  assert (Hc1 : consistent st1) by (eapply step_consistent; eassumption).
  destruct (head_is_executed st1 (obs ++ ObsUnshift item :: timer_obs timer)
              item (queue st) now Hc1 eq_refl)
    as (ls' & st' & o' & T' & Hres & Hft & _ & _ & Hrun' & Hph' & Hq' & Hex & Hdep & _).
  exists ls', st', (timer_obs timer ++ o').
  split; [exact Hres|]. split; [exact Hft|]. split.
  { unfold run. rewrite (run_from_Some_app _ _ _ _ Hrun).
    unfold run_from. cbn [fold_left]. rewrite Hstep.
    fold (run_from (st1, obs ++ ObsUnshift item :: timer_obs timer) ls').
    rewrite Hrun', <- app_assoc. reflexivity. }
  split; [exact Hph'|]. split; [exact Hq'|].
  rewrite executed_app, departed_app, executed_timer_obs, departed_timer_obs, Hdep.
  split; [exact Hex | reflexivity].
Qed.

(** C6. Entries are executed in the order of submission.  The promises
    number the entries in that order; a call of [enqueue] puts the new
    entry behind all the others; the sequence of executions never goes
    back to a smaller promise and skips none: every entry older than the
    one next in line has been executed.  The entry at the head gets its
    turn by the resumptions of the awaits alone; an execution that ends
    with a result, or with an error that is no RATE_LIMIT error, makes
    the entry leave and the others keep their order; and when every
    execution resolves, the entries the manager holds are executed and
    fulfilled one after the other in the order of submission, until the
    manager is idle.  An execution that throws a RATE_LIMIT error puts
    the entry back at the head of the queue instead of rejecting it (no
    rejection ever carries a RATE_LIMIT error); the next execution after
    that, whatever was submitted meanwhile, is of the same entry, and it
    does take place once the waits are over. *)
Theorem fifo_with_head_reinsertion ls st obs :
  run ls = Some (st, obs) ->
  submitted obs = seq 0 (next_promise st) /\
  StronglySorted le (executed obs) /\
  (forall p, (p < frontier st)%nat -> In p (executed obs)) /\
  (forall req now, exists st' o,
     step (CallEnqueue req now) st = Some (st', o) /\
     submitted o = [next_promise st] /\
     unsettled st' = unsettled st ++ [mkItem req (next_promise st) now] /\
     executed o = [] /\ departed o = []) /\
  (forall item rest T, unsettled st = item :: rest ->
     exists ls' st' o,
       Forall is_resume ls' /\ from_time T ls' /\
       run (ls ++ ls') = Some (st', obs ++ o) /\
       phase st' = AwaitExecute item /\ queue st' = rest /\
       in_flight st ++ executed o = [promise item] /\ departed o = []) /\
  (forall item outcome now,
     phase st = AwaitExecute item ->
     match outcome with
     | inr error => _isRateLimitError error = false
     | inl _ => True
     end ->
     exists st' o,
       step (ExecuteSettles outcome now) st
       = Some (st', match outcome with
                    | inl result => ObsResolve item result
                    | inr error => ObsReject item error
                    end :: o) /\
       unsettled st' = queue st /\ executed o = [] /\ departed o = []) /\
  (forall T, exists ls' st' o,
     from_time T ls' /\
     run (ls ++ ls') = Some (st', obs ++ o) /\
     phase st' = Idle /\
     in_flight st ++ executed o = ids (unsettled st) /\
     settled o = ids (unsettled st)) /\
  (forall item error now,
     phase st = AwaitExecute item -> _isRateLimitError error = true ->
     exists st' o,
       step (ExecuteSettles (inr error) now) st = Some (st', ObsUnshift item :: o) /\
       queue st' = item :: queue st /\ executed o = [] /\
       forall item' x, ~ In (ObsReject item' x) o) /\
  (forall item error, In (ObsReject item error) obs -> _isRateLimitError error = false) /\
  (forall o1 item o2, obs = o1 ++ ObsUnshift item :: o2 ->
     match executed o2 with
     | [] => awaits_retry st item
     | p :: _ => p = promise item
     end) /\
  (forall item error now,
     phase st = AwaitExecute item -> _isRateLimitError error = true ->
     exists ls' st' o,
       Forall is_resume ls' /\ from_time now ls' /\
       run (ls ++ ExecuteSettles (inr error) now :: ls')
       = Some (st', obs ++ ObsUnshift item :: o) /\
       phase st' = AwaitExecute item /\ queue st' = queue st /\
       executed o = [promise item] /\ departed o = []) /\
  (forall item timer now,
     phase st = AwaitWaitForRateLimit item timer -> due timer now = true ->
     exists st1 timer1,
       step (Resume now) st = Some (st1, ObsShift item :: timer_obs timer1) /\
       phase st1 = AwaitCheckRateLimit item timer1 /\
       forall now1, due timer1 now1 = true ->
         exists st2, step (Resume now1) st1 = Some (st2, [ObsExecute item]) /\
                     phase st2 = AwaitExecute item).
Proof.
  intros Hrun. pose proof (run_consistent _ _ _ Hrun) as Hc.
  split; [eapply submitted_in_order, Hrun|].
  split; [eapply executed_in_order, Hrun|].
  split; [eapply before_frontier_executed, Hrun|].
  split; [intros req now; apply enqueue_at_the_tail, Hc|].
  split.
  { intros item rest T Hun.
    destruct (head_is_executed st obs item rest T Hc Hun)
      as (ls' & st' & o & T' & Hres & Hft & _ & _ & Hrun' & Hph' & Hq' & Hex & Hdep & _).
    exists ls', st', o. unfold run. rewrite (run_from_Some_app _ _ _ _ Hrun).
    repeat split; try assumption; apply Hft. }
  split.
  { intros item outcome now Hph Hout.
    destruct (execution_settles st item outcome now Hc Hph Hout)
      as (st' & o & Hstep & _ & Hun & _ & Hex & Hdep & _).
    exists st', o. repeat split; assumption. }
  split.
  { intros T.
    destruct (queue_drains (length (unsettled st)) st obs T Hc eq_refl)
      as (ls' & st' & o & Hft & Hrun' & Hph' & Hex & _ & Hset & _).
    exists ls', st', o. unfold run. rewrite (run_from_Some_app _ _ _ _ Hrun).
    repeat split; try assumption; apply Hft. }
  split.
  { intros item error now Hph Hrl. unfold step, after_execute. rewrite Hph, Hrl.
    eexists _, _. split; [reflexivity|]. split; [reflexivity|].
    destruct (_waitForRateLimit _ _ _); cbn; split; try reflexivity;
      intros item' x Hin; intuition discriminate. }
  split; [eapply rejections_are_not_rate_limits, Hrun|].
  split; [eapply requeued_entry_runs_next, Hrun|].
  split.
  { intros item error now. apply rate_limited_entry_is_executed_again, Hrun. }
  intros item timer now. apply requeued_entry_can_run. exact Hc.
Qed.

(** ** The queue: its length *)














(** ** The queue: the rate limits *)

Lemma updateRateLimit_lookup p now limits q :
  _updateRateLimit p now limits !! q
  = if decide (p = q)
    then Some (match limits !! p with
               | Some limit =>
                   if resetTime limit <=? now
                   then {| count := 1; resetTime := now + 60000 |}
                   else {| count := count limit + 1; resetTime := resetTime limit |}
               | None => {| count := 1; resetTime := now + 60000 |}
               end)
    else limits !! q.
Proof.
  unfold _updateRateLimit.
  destruct (limits !! p) as [limit|] eqn:Hl; unfold from_option, id; cbn [resetTime count].
  - destruct (resetTime limit <=? now); rewrite lookup_insert; reflexivity.
  - assert ((now + 60000 <=? now) = false) as -> by lia.
    rewrite lookup_insert. reflexivity.
Qed.

Lemma rateLimits_step l st st' o :
  transition st l st' o ->
  match l with
  | ExecuteSettles (inl _) now =>
      exists item, phase st = AwaitExecute item /\
        rateLimits st' = _updateRateLimit (provider (request item)) now (rateLimits st)
  | _ => rateLimits st' = rateLimits st
  end.
Proof.
  intros Htr. invert_transition Htr; try reflexivity; eauto.
Qed.

Lemma resolved_for_app p o1 o2 :
  resolved_for p (o1 ++ o2) <-> resolved_for p o1 \/ resolved_for p o2.
Proof.
  unfold resolved_for. split.
  - intros (item & result & Hin & Hp). apply in_app_or in Hin as [Hin|Hin]; eauto 6.
  - intros [(item & result & Hin & Hp)|(item & result & Hin & Hp)];
      exists item, result; (split; [apply in_or_app; auto | exact Hp]).
Qed.

Lemma in_timer_obs x t : In x (timer_obs t) -> exists ms, x = ObsSetTimeout ms.
Proof. destruct t; cbn; [intros [<-|[]]; eauto | intros []]. Qed.

(** The only transition that resolves is the settling of an execution with
    a result, and it resolves the entry in flight. *)
Lemma resolve_in_step l st st' o item result :
  transition st l st' o ->
  In (ObsResolve item result) o ->
  (exists now, l = ExecuteSettles (inl result) now) /\ phase st = AwaitExecute item.
Proof.
  intros Htr Hin.
  destruct Htr;
    try match goal with
        | Hd : drained _ _ _ _ _ |- _ => destruct Hd
        end;
    cbn [In] in Hin;
    repeat match goal with
           | H : _ \/ _ |- _ => destruct H
           | H : False |- _ => destruct H
           | H : In _ (timer_obs _) |- _ => apply in_timer_obs in H as [? ?]
           | H : ObsResolve _ _ = ObsResolve _ _ |- _ => injection H as -> ->
           | H : caught_primitive _ ?r = _ |- _ => destruct r; discriminate H
           | H : _ = ObsResolve _ _ |- _ => discriminate H
           | H : ObsResolve _ _ = _ |- _ => discriminate H
           end;
    split; eauto.
Qed.

Lemma resolved_for_step l st st' o p :
  transition st l st' o ->
  resolved_for p o
  <-> match l with
      | ExecuteSettles (inl _) _ =>
          exists item, phase st = AwaitExecute item /\ provider (request item) = p
      | _ => False
      end.
Proof.
  intros Htr. unfold resolved_for. split.
  - intros (item & result & Hin & Hp).
    destruct (resolve_in_step _ _ _ _ _ _ Htr Hin) as [[now ->] Hph]. eauto.
  - destruct Htr; try tauto; intros (item' & Hph & Hp);
      exists item, result; (split; [left; reflexivity | congruence]).
Qed.

(** A provider has a rate-limit record iff one of its executions resolved. *)
Lemma rateLimits_iff_resolved ls st obs :
  run ls = Some (st, obs) ->
  forall p, is_Some (rateLimits st !! p) <-> resolved_for p obs.
Proof.
  intros Hrun.
  apply (run_ind (fun st obs =>
           forall p, is_Some (rateLimits st !! p) <-> resolved_for p obs)) in Hrun;
    [apply Hrun | |].
  - intros p. cbn. rewrite lookup_empty. split.
    + intros [x Hx]. discriminate.
    + intros (item & result & [] & _).
  - clear. intros st obs l st' o Hc IH Hstep p.
    apply step_transition in Hstep; [|exact Hc].
    rewrite resolved_for_app, <- IH, (resolved_for_step _ _ _ _ p Hstep).
    pose proof (rateLimits_step _ _ _ _ Hstep) as Hrl.
    destruct l as [req now|now|[result|error] now|reason now]; try (rewrite Hrl; tauto).
    destruct Hrl as (item & Hph & ->). rewrite updateRateLimit_lookup.
    destruct (decide (provider (request item) = p)) as [Heq|Hne].
    + split; [intros _; right; eauto | intros _; eauto].
    + split; [tauto|]. intros [H|(item' & Hph' & Hp)]; [exact H|].
      congruence.
Qed.

(** C8 (as amended). The rate-limit record of a provider is created by the
    first execution for that provider that resolves, with count 1 and a
    window of 60 s from then, and is updated after every execution for
    that provider that resolves: a fresh window when the current one has
    run out, one more in the count otherwise.  A provider has a record iff
    one of its executions has resolved; an execution that fails, with a
    RATE_LIMIT error or with any other, and every other event, leaves the
    records as they are. *)
Theorem rate_limits_follow_resolved_executions ls st obs :
  run ls = Some (st, obs) ->
  (forall p, is_Some (rateLimits st !! p) <-> resolved_for p obs) /\
  (forall l st' o, step l st = Some (st', o) ->
     match l with
     | ExecuteSettles (inl _) now =>
         exists item, phase st = AwaitExecute item /\
           rateLimits st' !! provider (request item)
           = Some (match rateLimits st !! provider (request item) with
                   | Some limit =>
                       if resetTime limit <=? now
                       then {| count := 1; resetTime := now + 60000 |}
                       else {| count := count limit + 1; resetTime := resetTime limit |}
                   | None => {| count := 1; resetTime := now + 60000 |}
                   end) /\
           forall q, q <> provider (request item) ->
                     rateLimits st' !! q = rateLimits st !! q
     | _ => rateLimits st' = rateLimits st
     end).
Proof.
  intros Hrun. split; [apply (rateLimits_iff_resolved _ _ _ Hrun)|].
  intros l st' o Hstep.
  apply step_transition in Hstep; [|eapply run_consistent, Hrun].
  pose proof (rateLimits_step _ _ _ _ Hstep) as Hrl.
  destruct l as [req now|now|[result|error] now|reason now]; try exact Hrl.
  destruct Hrl as (item & Hph & ->). exists item. split; [exact Hph|].
  split.
  - rewrite updateRateLimit_lookup. rewrite decide_True by reflexivity. reflexivity.
  - intros q Hq. rewrite updateRateLimit_lookup. rewrite decide_False by congruence.
    reflexivity.
Qed.

(** C9. When the execution of an entry throws a RATE_LIMIT error and the
    provider has no rate-limit record (none of its executions has
    resolved), neither [_waitForRateLimit] nor the [_checkRateLimit] of
    the next drain sets a timer: both awaits may resume at the very clock
    reading of the failure, and the entry is executed again with no
    timeout in between, the manager being back in the state it failed in. *)
Theorem rate_limited_retry_without_record_is_immediate
    ls st obs item error now :
  run ls = Some (st, obs) ->
  phase st = AwaitExecute item ->
  rateLimits st !! provider (request item) = None ->
  _isRateLimitError error = true ->
  ~ resolved_for (provider (request item)) obs /\
  _waitForRateLimit (provider (request item)) now (rateLimits st) = None /\
  _checkRateLimit (provider (request item)) now (rateLimits st) = None /\
  run_from (st, []) [ExecuteSettles (inr error) now; Resume now; Resume now]
  = Some (st, [ObsUnshift item; ObsShift item; ObsExecute item]).
Proof.
  intros Hrun Hph Hnone Hrl.
  split.
  { rewrite <- (rateLimits_iff_resolved _ _ _ Hrun), Hnone. intros [x Hx]. discriminate. }
  split; [unfold _waitForRateLimit; rewrite Hnone; reflexivity|].
  split; [unfold _checkRateLimit; rewrite Hnone; reflexivity|].
  pose proof (run_consistent _ _ _ Hrun) as [Hp _ _ _ _]. rewrite Hph in Hp.
  unfold run_from. cbn [fold_left]. unfold step at 1. rewrite Hph.
  unfold after_execute. rewrite Hrl. unfold _waitForRateLimit. rewrite Hnone.
  cbn [timer_obs app]. unfold step at 1. cbn [phase due].
  rewrite (finally_shift _ _ item (queue st)) by reflexivity.
  cbn [rateLimits]. unfold _checkRateLimit. rewrite Hnone.
  cbn [timer_obs app]. unfold step. cbn [phase due queue processing rateLimits next_promise].
  rewrite <- Hp, <- Hph, state_eta. reflexivity.
Qed.

(** ** The queue on the scenarios *)

Lemma fifo_with_head_reinsertion_witness :
  run [CallEnqueue request_a 0; CallEnqueue request_b 0; Resume 0]
  = Some (a_executing_b_waiting,
          [ObsPush entry_a; ObsShift entry_a; ObsPush entry_b; ObsExecute entry_a]) /\
  (exists st' o,
     step (CallEnqueue request_a 5) a_executing_b_waiting = Some (st', o) /\
     submitted o = [2%nat] /\
     unsettled st' = [entry_a; entry_b; mkItem request_a 2 5]) /\
  (exists ls' st' o,
     Forall is_resume ls' /\ from_time 1 ls' /\
     run ([CallEnqueue request_a 0; CallEnqueue request_b 0; Resume 0]
            ++ ExecuteSettles (inr rate_limit_error) 1 :: ls')
     = Some (st', [ObsPush entry_a; ObsShift entry_a; ObsPush entry_b;
                   ObsExecute entry_a] ++ ObsUnshift entry_a :: o) /\
     phase st' = AwaitExecute entry_a /\ queue st' = [entry_b] /\
     executed o = [0%nat] /\ departed o = []) /\
  (exists ls' st' o,
     from_time 1 ls' /\
     run ([CallEnqueue request_a 0; CallEnqueue request_b 0; Resume 0] ++ ls')
     = Some (st', [ObsPush entry_a; ObsShift entry_a; ObsPush entry_b;
                   ObsExecute entry_a] ++ o) /\
     phase st' = Idle /\
     [0%nat] ++ executed o = [0; 1]%nat /\
     settled o = [0; 1]%nat).
Proof.
  destruct (fifo_with_head_reinsertion
              [CallEnqueue request_a 0; CallEnqueue request_b 0; Resume 0]
              a_executing_b_waiting
              [ObsPush entry_a; ObsShift entry_a; ObsPush entry_b; ObsExecute entry_a]
              eq_refl)
    as (_ & _ & _ & Henq & _ & _ & Hdrain & _ & _ & _ & Hagain & _).
  split; [reflexivity|]. split.
  - destruct (Henq request_a 5) as (st' & o & Hstep & Hsub & Hun & _).
    exists st', o. repeat split; assumption.
  - split.
    + apply (Hagain entry_a rate_limit_error 1 eq_refl eq_refl).
    + destruct (Hdrain 1) as (ls' & st' & o & Hft & Hrun & Hph & Hex & Hset).
      exists ls', st', o. repeat split; try assumption; apply Hft.
Defined.

(** In the scenario the first entry is executed twice, then the second. *)
Example requeue_scenario_executions :
  option_map (fun r => executed (snd r)) (run requeue_scenario) = Some [0; 0; 1]%nat.
Proof. reflexivity. Qed.



(** An execution that rejects with [undefined]: the [catch] block throws
    at [error.type], the promise of the entry is neither fulfilled nor
    rejected, and the entry has left the manager, which is idle. *)
Example undefined_rejection_drops_the_entry :
  run [CallEnqueue request_a 0; Resume 0; ExecuteRejectsWith PUndefined 1]
  = Some ({| queue := []; processing := false; rateLimits := ∅;
             phase := Idle; next_promise := 1 |},
          [ObsPush entry_a; ObsShift entry_a; ObsExecute entry_a;
           ObsThrow entry_a (property_of_nullish "undefined" "type")]).
Proof. reflexivity. Qed.

Lemma rate_limits_follow_resolved_executions_witness :
  exists st obs,
    run [CallEnqueue request_a 0; Resume 0; ExecuteSettles (inl VNull) 7]
    = Some (st, obs) /\
    (is_Some (rateLimits st !! "a") <-> resolved_for "a" obs).
Proof.
  destruct (run [CallEnqueue request_a 0; Resume 0; ExecuteSettles (inl VNull) 7])
    as [[st obs]|] eqn:Hrun.
  - exists st, obs. split; [reflexivity|].
    apply (proj1 (rate_limits_follow_resolved_executions _ st obs Hrun) "a").
  - vm_compute in Hrun. discriminate Hrun.
Defined.

(** The record the first resolved execution creates. *)
Example first_resolved_execution_opens_window :
  option_map (fun r => rateLimits (fst r) !! "a")
    (run [CallEnqueue request_a 0; Resume 0; ExecuteSettles (inl VNull) 7])
  = Some (Some {| count := 1; resetTime := 60007 |}).
Proof. reflexivity. Qed.

(** A request for provider "a" is submitted, executed, and fails with a
    network error: no rate-limit record exists for "a" afterwards. *)
Lemma failed_attempt_creates_no_record :
  run [CallEnqueue request_a 0; Resume 0; ExecuteSettles (inr network_error) 1]
  = Some ({| queue := []; processing := false; rateLimits := ∅;
             phase := Idle; next_promise := 1 |},
          [ObsPush entry_a; ObsShift entry_a; ObsExecute entry_a;
           ObsReject entry_a network_error]) /\
  (∅ : gmap string RateLimit) !! "a" = None.
Proof. split; reflexivity. Qed.

Lemma rate_limited_retry_without_record_is_immediate_witness :
  run [CallEnqueue request_a 0; Resume 0]
  = Some (executing_a, [ObsPush entry_a; ObsShift entry_a; ObsExecute entry_a]) /\
  run_from (executing_a, [])
    [ExecuteSettles (inr rate_limit_error) 1; Resume 1; Resume 1]
  = Some (executing_a, [ObsUnshift entry_a; ObsShift entry_a; ObsExecute entry_a]).
Proof.
  split; [reflexivity|].
  apply (proj2 (proj2 (proj2 (rate_limited_retry_without_record_is_immediate
                  [CallEnqueue request_a 0; Resume 0] executing_a
                  [ObsPush entry_a; ObsShift entry_a; ObsExecute entry_a]
                  entry_a rate_limit_error 1 eq_refl eq_refl eq_refl eq_refl)))).
Defined.

(** ** The queue: the entries that leave *)

(** X13. Every promise [enqueue] hands out is settled at most once, and
    the promises are settled in the order they were handed out.  The
    promises submitted are those of the entries that have left the
    manager, in that order, followed by those of the entries it holds:
    no entry is lost inside the manager and none leaves before an older
    one.  An entry leaves with its promise settled, or is dropped with
    its promise pending when its execution rejects with [null] or
    [undefined]; where that never happens, the promises that left are
    the promises settled.  The manager is idle exactly when every entry
    has left. *)
Theorem promises_are_settled_once_and_in_order ls st obs :
  run ls = Some (st, obs) ->
  submitted obs = departed obs ++ ids (unsettled st) /\
  departed obs = seq 0 (length (departed obs)) /\
  (phase st = Idle <-> departed obs = submitted obs) /\
  departed obs ≡ₚ settled obs ++ dropped obs /\
  StronglySorted lt (settled obs) /\
  (dropped obs = [] -> settled obs = departed obs).
Proof.
  intros Hrun.
  pose proof (submitted_departed_unsettled _ _ _ Hrun) as Hcons.
  pose proof (submitted_in_order _ _ _ Hrun) as Hsub.
  pose proof (run_consistent _ _ _ Hrun) as [_ Hi Hr _ _].
  destruct (settled_among_departed obs) as (Hsl & Hperm & Hnone).
  assert (Hseq : departed obs = seq 0 (length (departed obs)))
    by (eapply seq_prefix; rewrite <- Hsub; exact Hcons).
  split; [exact Hcons|]. split; [exact Hseq|]. split.
  - rewrite Hcons. unfold unsettled. split.
    + intros Hph. rewrite Hph, (Hi Hph). cbn. rewrite app_nil_r. reflexivity.
    + intros Heq. rewrite <- (app_nil_r (departed obs)) in Heq at 1.
      apply app_inv_head in Heq.
      destruct (phase st) as [|item timer|item|item timer] eqn:Hph;
        [reflexivity | discriminate | discriminate |].
      destruct (Hr item timer eq_refl) as [rest Hq]. rewrite Hq in Heq. discriminate.
  - split; [exact Hperm|]. split; [|exact Hnone].
    apply (sorted_sublist _ _ Hsl). rewrite Hseq. apply seq_sorted.
Qed.

(** X14. Executions never overlap: every execution begun has come to its
    end before the next one begins, by the fulfilment, the rejection or
    the requeue of the very entry that was executed, or by the throw of
    the [catch] block that drops it; the one that has not is the entry
    the manager awaits. *)
Theorem executions_never_overlap ls st obs :
  run ls = Some (st, obs) ->
  executed obs = ended obs ++ in_flight st.
Proof. apply executed_ended_in_flight. Qed.

(** ** The queue: the clock *)

Lemma timed_later st t t' : timed st t -> t <= t' -> timed st t'.
Proof.
  intros [H1 H2 H3] Hle. constructor.
  - intros p limit Hl. destruct (H1 p limit Hl). split; [assumption | lia].
  - intros item timer Hph. specialize (H2 item timer Hph).
    destruct timer; [exact H2|]. intros limit Hl. specialize (H2 limit Hl). lia.
  - intros item Hph limit Hl. specialize (H3 item Hph limit Hl). lia.
Qed.

(** [_checkRateLimit] sets the timer to the end of the window. *)
Lemma checkRateLimit_until_reset item now limits :
  match _checkRateLimit (provider (request item)) now limits with
  | Some tm => window_over limits item (set_at tm + waitTime tm)
  | None => window_over limits item now
  end.
Proof.
  unfold _checkRateLimit, window_over.
  destruct (limits !! provider (request item)) as [limit|] eqn:Hl.
  - destruct (now <? resetTime limit) eqn:Hlt; cbn [set_at waitTime];
      intros limit' [= <-]; lia.
  - intros limit' Hl'. discriminate.
Qed.

(** A resolving execution, begun after the window had run out, leaves
    records that count one. *)
Lemma updateRateLimit_one item now limits :
  window_over limits item now ->
  (forall p limit, limits !! p = Some limit ->
                   count limit = 1 /\ resetTime limit <= now + 60000) ->
  forall p limit,
    _updateRateLimit (provider (request item)) now limits !! p = Some limit ->
    count limit = 1 /\ resetTime limit <= now + 60000.
Proof.
  intros Hover Hall p limit. rewrite updateRateLimit_lookup.
  destruct (decide (provider (request item) = p)) as [Heq|Hne]; [|apply Hall].
  destruct (limits !! provider (request item)) as [old|] eqn:Hl.
  - specialize (Hover old Hl).
    assert ((resetTime old <=? now) = true) as -> by lia.
    intros [= <-]. cbn. lia.
  - intros [= <-]. cbn. lia.
Qed.

Lemma timed_drained now limits st st' o :
  (forall p limit, limits !! p = Some limit ->
                   count limit = 1 /\ resetTime limit <= now + 60000) ->
  drained now limits st st' o -> timed st' now.
Proof.
  intros Hall Hd. destruct Hd as [Hq | next rest Hq]; constructor; cbn [rateLimits phase].
  - exact Hall.
  - discriminate.
  - discriminate.
  - exact Hall.
  - intros item timer [= <- <-]. apply checkRateLimit_until_reset.
  - discriminate.
Qed.

Lemma timed_step l st st' o t :
  timed st t -> t <= clock l -> transition st l st' o -> timed st' (clock l).
Proof.
  intros Ht Hle Htr. pose proof (timed_later _ _ _ Ht Hle) as [H1 H2 H3].
  destruct Ht as [_ H2' _].
  destruct Htr as [req now Hp | req now Hph Hq | item timer now Hph Hdue
                  | item timer rest now Hph Hdue Hq | item result now st' o Hph Hd
                  | item error now st' o Hph Hrl Hd | item error now Hph Hrl
                  | item reason now st' o Hph Hd];
    cbn [clock] in *.
  - constructor; cbn [rateLimits phase]; assumption.
  - constructor; cbn [rateLimits phase]; [assumption | | discriminate].
    intros item timer [= <- <-]. apply (checkRateLimit_until_reset (mkItem req _ now)).
  - constructor; cbn [rateLimits phase]; [assumption | discriminate |].
    intros item' [= <-]. specialize (H2' item timer Hph).
    destruct timer as [tm|]; [|exact (H2 item None Hph)].
    cbn [due] in Hdue. intros limit Hl. specialize (H2' limit Hl). lia.
  - constructor; cbn [rateLimits phase]; [assumption | | discriminate].
    intros item' timer' [= <- <-]. apply checkRateLimit_until_reset.
  - eapply timed_drained; [|exact Hd].
    apply updateRateLimit_one; [apply (H3 item Hph) | exact H1].
  - eapply timed_drained; [|exact Hd]. exact H1.
  - constructor; cbn [rateLimits phase]; [assumption | discriminate | discriminate].
  - eapply timed_drained; [|exact Hd]. exact H1.
Qed.

(** The invariant of the runs in which the clock never goes back. *)
Lemma run_timed ls : forall st obs,
  run ls = Some (st, obs) -> clock_runs_forward ls ->
  forall t, Forall (fun l => clock l <= t) ls -> timed st t.
Proof.
  induction ls as [|l ls IH] using rev_ind; intros st obs Hrun Hfw t Hup.
  - injection Hrun as <- <-. constructor; cbn.
    + intros p limit Hl. rewrite lookup_empty in Hl. discriminate.
    + discriminate.
    + discriminate.
  - unfold run in Hrun. rewrite run_from_snoc in Hrun.
    destruct (run_from (init, []) ls) as [[st0 obs0]|] eqn:Hprev; [|discriminate].
    destruct (step l st0) as [[st1 o]|] eqn:Hs; [|discriminate].
    injection Hrun as <- <-.
    unfold clock_runs_forward in Hfw. rewrite map_app in Hfw.
    apply StronglySorted_app in Hfw as (Hle & Hfw & _).
    apply Forall_app in Hup as [_ Hl]. apply Forall_cons in Hl as [Hl _].
    eapply timed_later; [|exact Hl].
    eapply timed_step with (t := clock l); [|lia|].
    + eapply IH; [exact Hprev | exact Hfw |].
      apply Forall_forall. intros x Hx. apply Hle.
      * apply list_elem_of_fmap_2, Hx.
      * cbn. left.
    + apply step_transition; [eapply run_consistent, Hprev | exact Hs].
Qed.

Lemma run_timed_next ls l st obs :
  run ls = Some (st, obs) -> clock_runs_forward (ls ++ [l]) -> timed st (clock l).
Proof.
  intros Hrun Hfw. unfold clock_runs_forward in Hfw. rewrite map_app in Hfw.
  apply StronglySorted_app in Hfw as (Hle & Hfw & _).
  eapply run_timed; [exact Hrun | exact Hfw |].
  apply Forall_forall. intros x Hx. apply Hle.
  - apply list_elem_of_fmap_2, Hx.
  - cbn. left.
Qed.

(** X15. When the clock never goes back, no execution for a provider
    begins within a minute of one that resolved: an execution that
    resolves at [now] sets the window of its provider to end at
    [now + 60000], whatever the record was, and no execution for a
    provider begins before the window of that provider has run out. *)
Theorem no_execution_within_a_minute_of_a_resolve ls st obs l st' o :
  run ls = Some (st, obs) ->
  clock_runs_forward (ls ++ [l]) ->
  step l st = Some (st', o) ->
  (forall item, In (ObsExecute item) o -> window_over (rateLimits st') item (clock l)) /\
  (forall item result, In (ObsResolve item result) o ->
     rateLimits st' !! provider (request item)
     = Some {| count := 1; resetTime := clock l + 60000 |}).
Proof.
  intros Hrun Hfw Hstep.
  pose proof (run_timed_next _ _ _ _ Hrun Hfw) as Ht.
  apply step_transition in Hstep; [|eapply run_consistent, Hrun].
  pose proof (timed_step _ _ _ _ _ Ht (Z.le_refl _) Hstep) as [_ _ H3'].
  destruct Ht as [_ _ H3].
  split.
  - intros item Hin.
    destruct Hstep as [req now Hp | req now Hph Hq | item' timer now Hph Hdue
                      | item' timer rest now Hph Hdue Hq | item' result now st' o Hph Hd
                      | item' error now st' o Hph Hrl Hd | item' error now Hph Hrl
                      | item' reason now st' o Hph Hd];
      try (destruct Hd as [Hq | next rest Hq]);
      cbn [In] in Hin;
      repeat match type of Hin with
             | caught_primitive _ ?r = _ \/ _ =>
                 destruct Hin as [Hin|Hin]; [destruct r; discriminate Hin|]
             | _ \/ _ => destruct Hin as [Hin|Hin]; try discriminate
             | False => destruct Hin
             | In _ (timer_obs _) => apply in_timer_obs in Hin as [ms Hin]; discriminate
             end.
    injection Hin as <-. apply H3'. reflexivity.
  - intros item result Hin.
    destruct Hstep as [req now Hp | req now Hph Hq | item' timer now Hph Hdue
                      | item' timer rest now Hph Hdue Hq | item' result' now st' o Hph Hd
                      | item' error now st' o Hph Hrl Hd | item' error now Hph Hrl
                      | item' reason now st' o Hph Hd];
      try (destruct Hd as [Hq | next rest Hq]);
      cbn [In] in Hin;
      repeat match type of Hin with
             | caught_primitive _ ?r = _ \/ _ =>
                 destruct Hin as [Hin|Hin]; [destruct r; discriminate Hin|]
             | _ \/ _ => destruct Hin as [Hin|Hin]; try discriminate
             | False => destruct Hin
             | In _ (timer_obs _) => apply in_timer_obs in Hin as [ms Hin]; discriminate
             end;
      injection Hin as <- <-; cbn [rateLimits clock];
      rewrite updateRateLimit_lookup, decide_True by reflexivity;
      specialize (H3 item' Hph); cbn [clock] in H3;
      (destruct (rateLimits st !! provider (request item')) as [old|] eqn:Hl;
       [specialize (H3 old Hl);
        assert ((resetTime old <=? now) = true) as -> by lia; reflexivity
       | reflexivity]).
Qed.

(** X16. When the clock never goes back, the count of a rate-limit
    record is always 1: the window of a provider has always run out when
    one of its executions resolves, so that the count is never raised
    above the first execution of a window. *)
Theorem rate_limit_count_is_always_one ls st obs p limit :
  run ls = Some (st, obs) ->
  clock_runs_forward ls ->
  rateLimits st !! p = Some limit ->
  count limit = 1.
Proof.
  intros Hrun Hfw Hl.
  assert (Hup : exists t, Forall (fun l => clock l <= t) ls).
  { clear. induction ls as [|l ls [t IH]]; [exists 0; constructor|].
    exists (Z.max t (clock l)). constructor; [lia|].
    eapply Forall_impl; [exact IH|]. cbn. intros; lia. }
  destruct Hup as [t Hup].
  destruct (run_timed _ _ _ Hrun Hfw t Hup) as [H1 _ _].
  apply (H1 p limit Hl).
Qed.

Lemma checkRateLimit_wait p now limits ms :
  (forall limit, limits !! p = Some limit -> resetTime limit <= now + 60000) ->
  In (ObsSetTimeout ms) (timer_obs (_checkRateLimit p now limits)) ->
  0 < ms <= 60000.
Proof.
  intros Hall. unfold _checkRateLimit.
  destruct (limits !! p) as [limit|] eqn:Hl; [|intros []].
  specialize (Hall limit eq_refl).
  destruct (now <? resetTime limit) eqn:Hlt; [|intros []].
  cbn. intros [[= <-]|[]]. lia.
Qed.

Lemma waitForRateLimit_wait p now limits ms :
  (forall limit, limits !! p = Some limit -> resetTime limit <= now + 60000) ->
  In (ObsSetTimeout ms) (timer_obs (_waitForRateLimit p now limits)) ->
  0 <= ms <= 60000.
Proof.
  intros Hall. unfold _waitForRateLimit.
  destruct (limits !! p) as [limit|] eqn:Hl; [|intros []].
  specialize (Hall limit eq_refl).
  cbn. intros [[= <-]|[]]. lia.
Qed.

(** X17. When the clock never goes back, the manager never waits for
    more than a minute at a time, and never sets a timer with a negative
    delay: every timeout it sets is between 0 and 60000 ms. *)
Theorem no_wait_is_longer_than_a_minute ls st obs l st' o ms :
  run ls = Some (st, obs) ->
  clock_runs_forward (ls ++ [l]) ->
  step l st = Some (st', o) ->
  In (ObsSetTimeout ms) o ->
  0 <= ms <= 60000.
Proof.
  intros Hrun Hfw Hstep Hin.
  pose proof (run_timed_next _ _ _ _ Hrun Hfw) as Ht.
  apply step_transition in Hstep; [|eapply run_consistent, Hrun].
  destruct Ht as [H1 _ H3].
  assert (Hold : forall p limit, rateLimits st !! p = Some limit ->
                                 resetTime limit <= clock l + 60000)
    by (intros p limit Hl; apply (H1 p limit Hl)).
  destruct Hstep as [req now Hp | req now Hph Hq | item' timer now Hph Hdue
                    | item' timer rest now Hph Hdue Hq | item' result' now st' o Hph Hd
                    | item' error now st' o Hph Hrl Hd | item' error now Hph Hrl
                    | item' reason now st' o Hph Hd];
    try (destruct Hd as [Hq | next rest Hq]);
    cbn [In clock] in *;
    repeat match type of Hin with
           | caught_primitive _ ?r = _ \/ _ =>
               destruct Hin as [Hin|Hin]; [destruct r; discriminate Hin|]
           | _ \/ _ => destruct Hin as [Hin|Hin]; try discriminate
           | False => destruct Hin
           end.
  - apply checkRateLimit_wait in Hin; [lia | apply Hold].
  - apply checkRateLimit_wait in Hin; [lia | apply Hold].
  - apply checkRateLimit_wait in Hin; [lia|].
    intros limit Hl.
    apply (updateRateLimit_one item' now (rateLimits st) (H3 item' Hph) H1 _ _ Hl).
  - apply checkRateLimit_wait in Hin; [lia | apply Hold].
  - apply waitForRateLimit_wait in Hin; [lia | apply Hold].
  - apply checkRateLimit_wait in Hin; [lia | apply Hold].
Qed.

(** ** The queue: an entry that keeps being rate limited *)

(** One failed execution at [t], the window being over: the entry is put
    back, taken again and executed again, and the manager is where it
    was. *)
Lemma retry_cycle_returns st obs item error t :
  consistent st ->
  phase st = AwaitExecute item ->
  _isRateLimitError error = true ->
  window_over (rateLimits st) item t ->
  run_from (st, obs) (retry_cycle error t)
  = Some (st, obs ++ ObsUnshift item
                       :: timer_obs (_waitForRateLimit (provider (request item)) t
                                       (rateLimits st))
                       ++ [ObsShift item; ObsExecute item]) /\
  forall ms, In (ObsSetTimeout ms)
               (timer_obs (_waitForRateLimit (provider (request item)) t (rateLimits st)))
             -> ms = 0.
Proof.
  intros [Hp _ _ _ _] Hph Hrl Hover. rewrite Hph in Hp.
  unfold retry_cycle, run_from. cbn [fold_left]. unfold step at 1. rewrite Hph.
  unfold after_execute. rewrite Hrl. unfold _waitForRateLimit, window_over in *.
  destruct (rateLimits st !! provider (request item)) as [limit|] eqn:Hl.
  - specialize (Hover limit eq_refl).
    assert (Hzero : Z.max 0 (resetTime limit - t) = 0) by lia. rewrite Hzero.
    cbn [timer_obs waitTime]. unfold step at 1. cbn [phase due set_at waitTime].
    assert ((t + 0 <=? t) = true) as -> by lia.
    rewrite (finally_shift _ _ item (queue st)) by reflexivity.
    cbn [rateLimits]. unfold _checkRateLimit. rewrite Hl.
    assert ((t <? resetTime limit) = false) as -> by lia.
    cbn [timer_obs]. unfold step.
    cbn [phase due queue processing rateLimits next_promise].
    rewrite <- Hp, <- Hph, state_eta, <- !app_assoc. cbn [app].
    split; [reflexivity|]. intros ms [[= <-]|[]]. reflexivity.
  - cbn [timer_obs app]. unfold step at 1. cbn [phase due].
    rewrite (finally_shift _ _ item (queue st)) by reflexivity.
    cbn [rateLimits]. unfold _checkRateLimit. rewrite Hl.
    cbn [timer_obs]. unfold step.
    cbn [phase due queue processing rateLimits next_promise].
    rewrite <- Hp, <- Hph, state_eta, <- !app_assoc. cbn [app].
    split; [reflexivity|]. intros ms [].
Qed.

Lemma retry_cycles_return n : forall st obs item error t,
  consistent st ->
  phase st = AwaitExecute item ->
  _isRateLimitError error = true ->
  window_over (rateLimits st) item t ->
  exists o,
    run_from (st, obs) (retry_cycles n error t) = Some (st, obs ++ o) /\
    executed o = repeat (promise item) n /\
    settled o = [] /\
    forall ms, In (ObsSetTimeout ms) o -> ms = 0.
Proof.
  induction n as [|n IH]; intros st obs item error t Hc Hph Hrl Hover.
  - exists []. cbn. rewrite app_nil_r. repeat split. intros ms [].
  - destruct (retry_cycle_returns st obs item error t Hc Hph Hrl Hover) as [Hone Hms].
    set (o1 := ObsUnshift item
                 :: timer_obs (_waitForRateLimit (provider (request item)) t
                                 (rateLimits st))
                 ++ [ObsShift item; ObsExecute item]) in *.
    destruct (IH st (obs ++ o1) item error t Hc Hph Hrl Hover)
      as (o & Hrun & Hex & Hset & Hto).
    exists (o1 ++ o). cbn [retry_cycles].
    rewrite (run_from_Some_app _ _ _ _ Hone), Hrun, <- app_assoc.
    split; [reflexivity|].
    rewrite executed_app, settled_app, Hex, Hset. subst o1.
    rewrite executed_cons, settled_cons, executed_app, settled_app,
      executed_timer_obs, settled_timer_obs.
    split; [reflexivity|]. split; [reflexivity|].
    intros ms Hin. apply in_app_or in Hin as [Hin|Hin]; [|apply Hto, Hin].
    destruct Hin as [Hin|Hin]; [discriminate|].
    apply in_app_or in Hin as [Hin|Hin]; [apply Hms, Hin|].
    destruct Hin as [Hin|[Hin|[]]]; discriminate.
Qed.

(** X18. There is no bound on the retries of an entry that is rate
    limited: as long as its execution throws a RATE_LIMIT error it is put
    back and executed again, any number of times, and is never rejected;
    meanwhile no other entry is executed and no promise is settled.  Once
    the window of its provider has run out, the retries follow each other
    with waits of 0 ms at most. *)
Theorem rate_limited_entry_is_retried_without_bound
    ls st obs item error t (n : nat) :
  run ls = Some (st, obs) ->
  phase st = AwaitExecute item ->
  _isRateLimitError error = true ->
  window_over (rateLimits st) item t ->
  exists o,
    run (ls ++ retry_cycles n error t) = Some (st, obs ++ o) /\
    executed o = repeat (promise item) n /\
    settled o = [] /\
    forall ms, In (ObsSetTimeout ms) o -> ms = 0.
Proof.
  intros Hrun Hph Hrl Hover.
  destruct (retry_cycles_return n st obs item error t
              (run_consistent _ _ _ Hrun) Hph Hrl Hover) as (o & Hcycles & Hrest).
  exists o. split; [|exact Hrest].
  unfold run. rewrite (run_from_Some_app _ _ _ _ Hrun). exact Hcycles.
Qed.

(** ** The queue on further scenarios *)


Lemma promises_are_settled_once_and_in_order_witness :
  exists st obs,
    run dropped_entry_scenario = Some (st, obs) /\
    submitted obs = departed obs ++ ids (unsettled st) /\
    departed obs = seq 0 (length (departed obs)) /\
    (phase st = Idle <-> departed obs = submitted obs) /\
    departed obs ≡ₚ settled obs ++ dropped obs /\
    StronglySorted lt (settled obs) /\
    (dropped obs = [] -> settled obs = departed obs).
Proof.
  destruct (run dropped_entry_scenario) as [[st obs]|] eqn:Hrun.
  - exists st, obs. split; [reflexivity|].
    apply (promises_are_settled_once_and_in_order dropped_entry_scenario st obs Hrun).
  - vm_compute in Hrun. discriminate Hrun.
Defined.

(** In the scenario the first entry is dropped and the second fulfilled:
    both have left, one promise is settled, and the manager is idle. *)
Example dropped_entry_scenario_leaves :
  option_map (fun r => (phase (fst r), submitted (snd r), departed (snd r),
                        settled (snd r), dropped (snd r)))
    (run dropped_entry_scenario)
  = Some (Idle, [0; 1]%nat, [0; 1]%nat, [1%nat], [0%nat]).
Proof. reflexivity. Qed.

Lemma executions_never_overlap_witness :
  exists st obs,
    run dropped_entry_scenario = Some (st, obs) /\
    executed obs = ended obs ++ in_flight st.
Proof.
  destruct (run dropped_entry_scenario) as [[st obs]|] eqn:Hrun.
  - exists st, obs. split; [reflexivity|].
    apply (executions_never_overlap dropped_entry_scenario st obs Hrun).
  - vm_compute in Hrun. discriminate Hrun.
Defined.

(** In the scenario the first entry ends twice, by the requeue and by
    the fulfilment, before the second is executed. *)
Example requeue_scenario_ends :
  option_map (fun r => (ended (snd r), in_flight (fst r), settled (snd r)))
    (run requeue_scenario)
  = Some ([0; 0]%nat, [1%nat], [0%nat]).
Proof. reflexivity. Qed.

Lemma no_execution_within_a_minute_of_a_resolve_witness :
  exists st' o,
    step (ExecuteSettles (inl VNull) 1000) executing_a = Some (st', o) /\
    rateLimits st' !! provider (request entry_a)
    = Some {| count := 1; resetTime := 1000 + 60000 |}.
Proof.
  destruct (step (ExecuteSettles (inl VNull) 1000) executing_a) as [[st' o]|] eqn:Hstep.
  - exists st', o. split; [reflexivity|].
    apply (proj2 (no_execution_within_a_minute_of_a_resolve
                    [CallEnqueue request_a 0; Resume 0] executing_a
                    [ObsPush entry_a; ObsShift entry_a; ObsExecute entry_a]
                    (ExecuteSettles (inl VNull) 1000) st' o eq_refl
                    ltac:(unfold clock_runs_forward; cbn; solve_sorted) Hstep)
             entry_a VNull).
    cbn in Hstep. injection Hstep as _ <-. left. reflexivity.
  - discriminate Hstep.
Defined.

(** The second request for the provider, taken a second after the first
    resolved, waits for the 59 s that are left of the window. *)
Example second_request_waits_for_the_window :
  option_map (fun r => snd r) (run second_request_scenario)
  = Some [ObsPush entry_a; ObsShift entry_a; ObsExecute entry_a;
          ObsResolve entry_a VNull;
          ObsPush {| request := request_a; promise := 1; timestamp := 2000 |};
          ObsShift {| request := request_a; promise := 1; timestamp := 2000 |};
          ObsSetTimeout 59000].
Proof. reflexivity. Qed.

Lemma rate_limit_count_is_always_one_witness :
  exists st obs,
    run second_request_scenario = Some (st, obs) /\
    forall limit, rateLimits st !! "a" = Some limit -> count limit = 1.
Proof.
  destruct (run second_request_scenario) as [[st obs]|] eqn:Hrun.
  - exists st, obs. split; [reflexivity|]. intros limit Hl.
    apply (rate_limit_count_is_always_one second_request_scenario st obs "a" limit Hrun
             ltac:(unfold clock_runs_forward; cbn; solve_sorted) Hl).
  - vm_compute in Hrun. discriminate Hrun.
Defined.

Lemma no_wait_is_longer_than_a_minute_witness :
  exists st obs st' o,
    run [CallEnqueue request_a 0; Resume 0; ExecuteSettles (inl VNull) 1000]
    = Some (st, obs) /\
    step (CallEnqueue request_a 2000) st = Some (st', o) /\
    In (ObsSetTimeout 59000) o /\
    0 <= 59000 <= 60000.
Proof.
  destruct (run [CallEnqueue request_a 0; Resume 0; ExecuteSettles (inl VNull) 1000])
    as [[st obs]|] eqn:Hrun; [|vm_compute in Hrun; discriminate Hrun].
  destruct (step (CallEnqueue request_a 2000) st) as [[st' o]|] eqn:Hstep;
    [|discriminate Hstep].
  assert (Hin : In (ObsSetTimeout 59000) o).
  { pose proof Hrun as Hst. vm_compute in Hst. injection Hst as <- _.
    vm_compute in Hstep. injection Hstep as _ <-. right. right. left. reflexivity. }
  exists st, obs, st', o. split; [reflexivity|]. split; [exact Hstep|].
  split; [exact Hin|].
  apply (no_wait_is_longer_than_a_minute _ st obs (CallEnqueue request_a 2000) st' o 59000
           Hrun ltac:(unfold clock_runs_forward; cbn; solve_sorted) Hstep Hin).
Defined.

Lemma rate_limited_entry_is_retried_without_bound_witness :
  exists o,
    run ([CallEnqueue request_a 0; Resume 0] ++ retry_cycles 2 rate_limit_error 1)
    = Some (executing_a, [ObsPush entry_a; ObsShift entry_a; ObsExecute entry_a] ++ o) /\
    executed o = repeat (promise entry_a) 2 /\
    settled o = [] /\
    forall ms, In (ObsSetTimeout ms) o -> ms = 0.
Proof.
  apply (rate_limited_entry_is_retried_without_bound
           [CallEnqueue request_a 0; Resume 0] executing_a
           [ObsPush entry_a; ObsShift entry_a; ObsExecute entry_a]
           entry_a rate_limit_error 1 2 eq_refl eq_refl eq_refl).
  intros limit Hl. cbn in Hl. rewrite lookup_empty in Hl. discriminate Hl.
Defined.
